(** * Volatility: the Linux memory-interpretation helpers and the process-tree root walk

    A shallow embedding of
      - [volatility/plugins/linux/common.py] (per-CPU walk, boot time, path
        reconstruction, page-cache lookup, file reassembly, address
        classification), and
      - [branches/scudette/volatility/plugins/windows/pstree.py]
        ([PSTree._find_root]).

    Python integers are unbounded, so they are [Z]; values read from the
    memory image are wrapped to the width of their C type where they are
    read.  Python's [None] is [option]'s [None]; a raised exception is the
    [Raise] case of [result]; a [while] loop whose termination is not
    syntactically evident takes a fuel argument and answers [None] when the
    fuel runs out. *)

From Stdlib Require Import ZArith Lia Bool List Ascii String DecimalString.
From stdpp Require Import base option list gmap strings sorting.

#[global] Set Warnings "-clear-no-such-hyp".

Open Scope Z_scope.

(** ** Exceptions *)

Inductive exn : Type :=
| AttributeError
| IndexError
| TypeError
| ValueError
| ZeroDivisionError
| SystemExit
| KeyError.

Inductive result (A : Type) : Type :=
| Ok (a : A)
| Raise (e : exn).
Arguments Ok {A} a.
Arguments Raise {A} e.

#[global] Instance result_ret : MRet result := fun _ a => Ok a.
#[global] Instance result_bind : MBind result := fun _ _ f m =>
  match m with
  | Ok a => f a
  | Raise e => Raise e
  end.

#[global] Instance result_fmap : FMap result := fun _ _ f m =>
  match m with
  | Ok a => Ok (f a)
  | Raise e => Raise e
  end.

(** ** The profile (symbol table and struct layouts) and the address space *)

(** [profile.get_symbol] answers [None] for a symbol it does not know. *)
Record Profile : Type := {
  get_symbol : string -> option Z;
  get_obj_size : string -> Z;
  get_obj_offset : string -> string -> Z
}.

Inductive width : Type := W32 | W64.

Definition bits (w : width) : Z :=
  match w with W32 => 32 | W64 => 64 end.

(** The virtual address space of the image.  [mem a] is the integer the
    typed accessor decodes at address [a]; each read wraps it to the range of
    the C type it is read as.  [read_str a] is the NUL-terminated string found
    at [a]. *)
Record AddressSpace : Type := {
  ptr_width : width;
  mem : Z -> Z;
  is_valid_address : Z -> bool;
  read_str : Z -> string
}.

Definition wrap_unsigned (n v : Z) : Z := v mod 2 ^ n.
Definition wrap_signed (n v : Z) : Z := (v + 2 ^ (n - 1)) mod 2 ^ n - 2 ^ (n - 1).

Definition read_ptr (vm : AddressSpace) (a : Z) : Z :=
  wrap_unsigned (bits (ptr_width vm)) (mem vm a).
Definition read_ulong (vm : AddressSpace) (a : Z) : Z :=
  wrap_unsigned (bits (ptr_width vm)) (mem vm a).
Definition read_long (vm : AddressSpace) (a : Z) : Z :=
  wrap_signed (bits (ptr_width vm)) (mem vm a).
Definition read_uint (vm : AddressSpace) (a : Z) : Z :=
  wrap_unsigned 32 (mem vm a).
Definition read_longlong (vm : AddressSpace) (a : Z) : Z :=
  wrap_signed 64 (mem vm a).

Definition ptr_bytes (vm : AddressSpace) : Z := bits (ptr_width vm) / 8.

(** A symbol address used as a condition: Python takes [None] and [0] for
    false.  [if_sym s] is the address when the condition holds. *)
Definition if_sym (s : option Z) : option Z :=
  match s with
  | Some a => if a =? 0 then None else Some a
  | None => None
  end.

(** [obj.Object] and integer addition are handed the symbol's address; an
    absent symbol leaves them with [None], which this model reports as
    [TypeError]. *)
Definition sym_addr (s : option Z) : result Z :=
  match s with
  | Some a => Ok a
  | None => Raise TypeError
  end.

Definition get_profile_symbol (p : Profile) (sym_name : string) : option Z :=
  get_symbol p sym_name.

(** ** Boot time *)

Definition nsecs_per : Z := 1000000000.

(** A [timespec] object at address [a]. *)
Definition tv_sec (p : Profile) (vm : AddressSpace) (a : Z) : Z :=
  read_long vm (a + get_obj_offset p "timespec" "tv_sec").
Definition tv_nsec (p : Profile) (vm : AddressSpace) (a : Z) : Z :=
  read_long vm (a + get_obj_offset p "timespec" "tv_nsec").

(** [get_time_vars]: the addresses of the two [timespec]s. *)
Definition get_time_vars (p : Profile) (vm : AddressSpace) : result (Z * Z) :=
  let wall_addr := get_profile_symbol p "wall_to_monotonic" in
  match if_sym wall_addr with
  | Some wall =>
      timeo ← sym_addr (get_profile_symbol p "total_sleep_time");
      Ok (wall, timeo)
  | None =>
      timekeeper ← sym_addr (get_profile_symbol p "timekeeper");
      Ok (timekeeper + get_obj_offset p "timekeeper" "wall_to_monotonic",
          timekeeper + get_obj_offset p "timekeeper" "total_sleep_time")
  end.

(** [while nsecs >= nsecs_per: nsecs = nsecs - nsecs_per; secs = secs + 1] *)
Fixpoint carry_loop (fuel : nat) (secs nsecs : Z) : option (Z * Z) :=
  match fuel with
  | O => None
  | S fuel' =>
      if nsecs_per <=? nsecs
      then carry_loop fuel' (secs + 1) (nsecs - nsecs_per)
      else Some (secs, nsecs)
  end.

(** [while nsecs < 0: nsecs = nsecs + nsecs_per; secs = secs - 1] *)
Fixpoint borrow_loop (fuel : nat) (secs nsecs : Z) : option (Z * Z) :=
  match fuel with
  | O => None
  | S fuel' =>
      if nsecs <? 0
      then borrow_loop fuel' (secs - 1) (nsecs + nsecs_per)
      else Some (secs, nsecs)
  end.

(** The arithmetic of [get_boot_time] on the four fields it reads. *)
Definition boot_time_of (fuel : nat) (wall_sec wall_nsec sleep_sec sleep_nsec : Z)
  : option Z :=
  let secs := wall_sec + sleep_sec in
  let nsecs := wall_nsec + sleep_nsec in
  let secs := secs * -1 in
  let nsecs := nsecs * -1 in
  '(secs, nsecs) ← carry_loop fuel secs nsecs;
  '(secs, nsecs) ← borrow_loop fuel secs nsecs;
  Some (secs + nsecs / nsecs_per / 100).

Definition get_boot_time (fuel : nat) (p : Profile) (vm : AddressSpace)
  : option (result Z) :=
  match get_time_vars p vm with
  | Raise e => Some (Raise e)
  | Ok (wall, timeo) =>
      Ok <$> boot_time_of fuel (tv_sec p vm wall) (tv_nsec p vm wall)
                               (tv_sec p vm timeo) (tv_nsec p vm timeo)
  end.

(** What the normalisation is meant to compute: floor quotient and remainder
    of the negated nanosecond sum. *)
Definition norm_secs (wall_sec wall_nsec sleep_sec sleep_nsec : Z) : Z :=
  - (wall_sec + sleep_sec) + (- (wall_nsec + sleep_nsec)) / nsecs_per.
Definition norm_nsecs (wall_nsec sleep_nsec : Z) : Z :=
  (- (wall_nsec + sleep_nsec)) mod nsecs_per.

(** ** The process-tree root walk *)

Record EPROCESS : Type := {
  UniqueProcessId : Z;
  InheritedFromUniqueProcessId : Z
}.

(** [PSTree._find_root]: the loop, with the [seen] set it maintains.  It
    answers the final [pid] together with the final [seen]. *)
Fixpoint find_root_loop (fuel : nat) (pid_dict : gmap Z EPROCESS)
    (seen : gset Z) (pid : Z) : option (Z * gset Z) :=
  match fuel with
  | O => None
  | S fuel' =>
      match pid_dict !! pid with
      | Some task =>
          if decide (pid ∈ seen) then Some (pid, seen)
          else find_root_loop fuel' pid_dict ({[pid]} ∪ seen)
                 (InheritedFromUniqueProcessId task)
      | None => Some (pid, seen)
      end
  end.

Definition _find_root (fuel : nat) (pid_dict : gmap Z EPROCESS) (pid : Z)
  : option Z :=
  fst <$> find_root_loop fuel pid_dict ∅ pid.

(** The [n]-th ancestor of [pid] along the inheritance links; the walk stays
    at a PID that is not in the map. *)
Fixpoint ancestor (pid_dict : gmap Z EPROCESS) (n : nat) (pid : Z) : Z :=
  match n with
  | O => pid
  | S n' =>
      match pid_dict !! pid with
      | Some task => ancestor pid_dict n' (InheritedFromUniqueProcessId task)
      | None => pid
      end
  end.

(** ** Per-CPU variables *)

(** In 2.6.3x the per-CPU symbols were renamed; both spellings are tried. *)
Definition get_per_cpu_symbol (p : Profile) (sym_name : string) : option Z :=
  match if_sym (get_profile_symbol p sym_name) with
  | Some ret => Some ret
  | None => get_profile_symbol p ("per_cpu__" ++ sym_name)
  end.

(** [bmap & (1 << i)] as a condition. *)
Definition bit_set (bmap i : Z) : bool :=
  negb (Z.land bmap (Z.shiftl 1 i) =? 0).

(** The bitmap word [online_cpus] reads. *)
Definition cpu_bitmap (p : Profile) (vm : AddressSpace) : result Z :=
  let cpu_online_bits_addr := get_profile_symbol p "cpu_online_bits" in
  let cpu_present_map_addr := get_profile_symbol p "cpu_present_map" in
  match if_sym cpu_online_bits_addr with
  | Some a => Ok (read_ulong vm a)
  | None =>
      match if_sym cpu_present_map_addr with
      | Some a => Ok (read_ulong vm a)
      | None => Raise AttributeError
      end
  end.

(** [for i in range(8): if bmap & (1 << i): cpus.append(i)] *)
Definition cpus_of_bitmap (bmap : Z) : list Z :=
  filter (fun i => bit_set bmap i = true) (seqZ 0 8).

Definition online_cpus (p : Profile) (vm : AddressSpace) : result (list Z) :=
  bmap ← cpu_bitmap p vm;
  Ok (cpus_of_bitmap bmap).

(** An object of the typed layer: a type name bound to an address. *)
Record TypedObject : Type := Object {
  obj_type : string;
  obj_offset : Z
}.

(** [cpus[-1]] *)
Definition last_item (cpus : list Z) : result Z :=
  match last cpus with
  | Some c => Ok c
  | None => Raise IndexError
  end.

(** The pairs the generator yields, in order. *)
Definition walk_per_cpu_var (p : Profile) (vm : AddressSpace)
    (per_var var_type : string) : result (list (Z * TypedObject)) :=
  cpus ← online_cpus p vm;
  last_cpu ← last_item cpus;
  let max_cpu := last_cpu + 1 in
  offset_var ← sym_addr (get_profile_symbol p "__per_cpu_offset");
  mapM (fun i =>
          let offset := read_ulong vm (offset_var + i * ptr_bytes vm) in
          cpu_var ← sym_addr (get_per_cpu_symbol p per_var);
          let addr := cpu_var + offset in
          Ok (i, Object var_type addr))
       (seqZ 0 max_cpu).

(** ** Physical address of a page *)

(** Python 2 integer [/]: floor division, [ZeroDivisionError] on zero. *)
Definition py_div (a b : Z) : result Z :=
  if b =? 0 then Raise ZeroDivisionError else Ok (a / b).

Definition VMEMMAP_START : Z := 0xea0000000000.

(** [page] is the value of the page pointer. *)
Definition phys_addr_of_page (p : Profile) (vm : AddressSpace) (page : Z)
  : result Z :=
  let mem_map_addr := get_profile_symbol p "mem_map" in
  let mem_section_addr := get_profile_symbol p "mem_section" in
  mem_map_ptr ←
    match if_sym mem_map_addr with
    | Some a => Ok (read_ptr vm a)
    | None =>
        match if_sym mem_section_addr with
        | Some _ => Ok VMEMMAP_START
        | None => Raise SystemExit
        end
    end;
  phys_offset ← py_div (page - mem_map_ptr) (get_obj_size p "page");
  let phys_offset := Z.shiftl phys_offset 12 in
  Ok phys_offset.

(** What section 4.2 of the specification writes for the same quantity. *)
Definition spec_phys_offset (page base page_struct_size : Z) : Z :=
  Z.shiftl ((page - base) * page_struct_size) 12.

(** ** Radix tree *)

Definition RADIX_TREE_MAP_SHIFT : Z := 6.
Definition RADIX_TREE_MAP_SIZE : Z := Z.shiftl 1 RADIX_TREE_MAP_SHIFT.
Definition RADIX_TREE_MAP_MASK : Z := RADIX_TREE_MAP_SIZE - 1.

(** A [Pointer] object: where it lies; its value is read from there. *)
Record Pointer : Type := PointerAt { ptr_offset : Z }.

Definition ptr_v (vm : AddressSpace) (ptr : Pointer) : Z :=
  read_ptr vm (ptr_offset ptr).

(** A [Pointer] in a condition: true when what it points to is mapped. *)
Definition ptr_true (vm : AddressSpace) (ptr : Pointer) : bool :=
  is_valid_address vm (ptr_v vm ptr).

Definition radix_tree_is_indirect_ptr (ptr : Z) : Z := Z.land ptr 1.

(** The address of the [radix_tree_node]. *)
Definition radix_tree_indirect_to_ptr (ptr : Z) : Z := Z.land ptr (Z.lnot 1).

Definition root_rnode (p : Profile) (root : Z) : Pointer :=
  PointerAt (root + get_obj_offset p "radix_tree_root" "rnode").

Definition node_height (p : Profile) (vm : AddressSpace) (node : Z) : Z :=
  read_uint vm (node + get_obj_offset p "radix_tree_node" "height").

(** [node.slots[idx]] *)
Definition node_slot (p : Profile) (vm : AddressSpace) (node idx : Z) : Pointer :=
  PointerAt (node + get_obj_offset p "radix_tree_node" "slots" + idx * ptr_bytes vm).

(** The [while 1] loop of [radix_tree_lookup_slot].  [height] is the
    unsigned counter the loop decrements; [height - 1 <= 0] ends it.  A
    negative [shift] makes [>>] raise.  Besides the last slot read, the loop
    records (as a ghost value) every [(node, idx)] it reads a slot from. *)
Fixpoint lookup_loop (p : Profile) (vm : AddressSpace) (node index shift : Z)
    (height : nat) (reads : list (Z * Z)) : result (Pointer * list (Z * Z)) :=
  if shift <? 0 then Raise ValueError else
  let idx := Z.land (Z.shiftr index shift) RADIX_TREE_MAP_MASK in
  let slot := node_slot p vm node idx in
  let shift := shift - RADIX_TREE_MAP_SHIFT in
  match height with
  | S (S _ as height') =>
      lookup_loop p vm node index shift height' (reads ++ [(node, idx)])
  | _ => Ok (slot, reads ++ [(node, idx)])
  end.

(** The slot reads of a descent through [levels] levels, top level first:
    all from [node], at the 6-bit slices of [index]. *)
Fixpoint level_reads (node index : Z) (levels : nat) : list (Z * Z) :=
  match levels with
  | O => []
  | S levels' =>
      (node, Z.land (Z.shiftr index (Z.of_nat levels' * RADIX_TREE_MAP_SHIFT))
               RADIX_TREE_MAP_MASK)
      :: level_reads node index levels'
  end.

(** [radix_tree_lookup_slot] with the ghost list of slot reads. *)
Definition radix_tree_lookup_reads (p : Profile) (vm : AddressSpace)
    (root index : Z) : result (option Pointer * list (Z * Z)) :=
  let node := root_rnode p root in
  if radix_tree_is_indirect_ptr (ptr_v vm node) =? 0 then
    if 0 <? index then Ok (None, [])
    else
      let off := root + get_obj_offset p "radix_tree_root" "rnode" in
      let page := PointerAt off in
      Ok (Some page, [])
  else
    let node := radix_tree_indirect_to_ptr (ptr_v vm node) in
    let height := node_height p vm node in
    let shift := (height - 1) * RADIX_TREE_MAP_SHIFT in
    '(slot, reads) ← lookup_loop p vm node index shift (Z.to_nat height) [];
    if ptr_v vm slot =? -1 then Ok (None, reads)
    else Ok (Some slot, reads).

Definition radix_tree_lookup_slot (p : Profile) (vm : AddressSpace)
    (root index : Z) : result (option Pointer) :=
  fst <$> radix_tree_lookup_reads p vm root index.

(** ** Page cache and file contents *)

Abbreviation bytes := (list Byte.byte).

(** The physical address space: [phys_read off len] is what
    [phys_as.read(off, len)] answers, [None] when it answers [None]. *)
Record PhysicalSpace : Type := {
  phys_read : Z -> Z -> option bytes
}.

(** [inode.i_mapping.page_tree]: the root embedded in the [address_space] the
    inode points to. *)
Definition page_tree (p : Profile) (vm : AddressSpace) (inode : Z) : Z :=
  read_ptr vm (inode + get_obj_offset p "inode" "i_mapping")
  + get_obj_offset p "address_space" "page_tree".

Definition i_size (p : Profile) (vm : AddressSpace) (inode : Z) : Z :=
  read_longlong vm (inode + get_obj_offset p "inode" "i_size").

Definition find_get_page (p : Profile) (vm : AddressSpace) (inode offset : Z)
  : result (option Pointer) :=
  radix_tree_lookup_slot p vm (page_tree p vm inode) offset.

(** [if page:] is false for [None] and for a pointer to unmapped memory. *)
Definition page_true (vm : AddressSpace) (page : option Pointer) : bool :=
  match page with
  | Some ptr => ptr_true vm ptr
  | None => false
  end.

Definition zero_page : bytes := replicate (Z.to_nat 4096) Byte.x00.

(** [get_page_contents]; its answer is [None] when the physical read's is. *)
Definition get_page_contents (p : Profile) (vm : AddressSpace)
    (phys_as : PhysicalSpace) (inode idx : Z) : result (option bytes) :=
  page ← find_get_page p vm inode idx;
  match page with
  | Some ptr =>
      if ptr_true vm ptr then
        phys_offset ← phys_addr_of_page p vm (ptr_v vm ptr);
        Ok (phys_read phys_as phys_offset 4096)
      else Ok (Some zero_page)
  | None => Ok (Some zero_page)
  end.

(** [data + get_page_contents(...)]: adding [None] to a string raises. *)
Definition str_add (data : bytes) (page : option bytes) : result bytes :=
  match page with
  | Some d => Ok (data ++ d)
  | None => Raise TypeError
  end.

(** [for idx in range(0, idxs): data = data + get_page_contents(...)] *)
Fixpoint read_pages (p : Profile) (vm : AddressSpace) (phys_as : PhysicalSpace)
    (inode : Z) (data : bytes) (idxs : list Z) : result bytes :=
  match idxs with
  | [] => Ok data
  | idx :: rest =>
      page ← get_page_contents p vm phys_as inode idx;
      data ← str_add data page;
      read_pages p vm phys_as inode data rest
  end.

(** Python's [data[:stop]]: a negative [stop] counts from the end. *)
Definition slice_to {A : Type} (data : list A) (stop : Z) : list A :=
  if stop <? 0 then take (Z.to_nat (Z.of_nat (length data) + stop)) data
  else take (Z.to_nat stop) data.

Definition get_file_contents (p : Profile) (vm : AddressSpace)
    (phys_as : PhysicalSpace) (inode : Z) : result bytes :=
  let data := [] in
  let file_size := i_size p vm inode in
  let extra := file_size mod 4096 in
  let idxs := file_size / 4096 in
  let '(extra, idxs) :=
    if negb (extra =? 0) then (4096 - extra, idxs + 1) else (extra, idxs) in
  data ← read_pages p vm phys_as inode data (seqZ 0 idxs);
  if negb (extra =? 0) then
    let extra := extra * -1 in
    Ok (slice_to data extra)
  else Ok data.

(** The page an absent-or-present lookup stands for at index [idx]: whether
    [get_page_contents] takes its zero-fill branch there. *)
Definition page_absent (p : Profile) (vm : AddressSpace) (inode idx : Z) : Prop :=
  exists page, find_get_page p vm inode idx = Ok page /\ page_true vm page = false.

(** The bytes page [idx] contributes, when fetching it does not fail. *)
Definition page_data (p : Profile) (vm : AddressSpace) (phys_as : PhysicalSpace)
    (inode idx : Z) : bytes :=
  match get_page_contents p vm phys_as inode idx with
  | Ok (Some d) => d
  | _ => []
  end.

(** The exception the fetch of page [idx] ends in, if any: its own, or the
    [TypeError] of adding [None] to the data. *)
Definition fetch_error (p : Profile) (vm : AddressSpace) (phys_as : PhysicalSpace)
    (inode idx : Z) : option exn :=
  match get_page_contents p vm phys_as inode idx with
  | Ok (Some _) => None
  | Ok None => Some TypeError
  | Raise e => Some e
  end.

(** ** Python string helpers *)

Fixpoint lstrip (c : ascii) (s : string) : string :=
  match s with
  | String a s' => if Ascii.eqb a c then lstrip c s' else s
  | EmptyString => EmptyString
  end.

Fixpoint rstrip (c : ascii) (s : string) : string :=
  match s with
  | EmptyString => EmptyString
  | String a s' =>
      match rstrip c s' with
      | EmptyString => if Ascii.eqb a c then EmptyString else String a EmptyString
      | r => String a r
      end
  end.

(** [s.strip(c)] for a one-character [c]. *)
Definition strip (c : ascii) (s : string) : string := rstrip c (lstrip c s).

(** [s.find(c) != -1] for a one-character [c]. *)
Fixpoint has_char (c : ascii) (s : string) : bool :=
  match s with
  | EmptyString => false
  | String a s' => Ascii.eqb a c || has_char c s'
  end.

(** [s[:-1]] *)
Fixpoint drop_last (s : string) : string :=
  match s with
  | EmptyString => EmptyString
  | String a EmptyString => EmptyString
  | String a s' => String a (drop_last s')
  end.

(** [s.replace(c, "")] for a one-character [c]. *)
Fixpoint remove_char (c : ascii) (s : string) : string :=
  match s with
  | EmptyString => EmptyString
  | String a s' =>
      if Ascii.eqb a c then remove_char c s' else String a (remove_char c s')
  end.

(** [s.startswith(prefix)] *)
Definition startswith (s pre : string) : bool := String.prefix pre s.

(** [sep.join(l)] *)
Definition join (sep : string) (l : list string) : string := String.concat sep l.

(** [str(n)] for an integer, in decimal. *)
Definition str_of_int (n : Z) : string := NilEmpty.string_of_int (Z.to_int n).

(** ** Path reconstruction *)

Definition MAX_STRING_LENGTH : Z := 256.

Definition d_parent (p : Profile) (vm : AddressSpace) (dentry : Z) : Z :=
  read_ptr vm (dentry + get_obj_offset p "dentry" "d_parent").
Definition d_inode (p : Profile) (vm : AddressSpace) (dentry : Z) : Z :=
  read_ptr vm (dentry + get_obj_offset p "dentry" "d_inode").
(** [dentry.d_name.name], a pointer to the characters. *)
Definition d_name_name (p : Profile) (vm : AddressSpace) (dentry : Z) : Z :=
  read_ptr vm (dentry + get_obj_offset p "dentry" "d_name"
                      + get_obj_offset p "qstr" "name").
Definition i_ino (p : Profile) (vm : AddressSpace) (inode : Z) : Z :=
  read_ulong vm (inode + get_obj_offset p "inode" "i_ino").
Definition mnt_root (p : Profile) (vm : AddressSpace) (vfsmnt : Z) : Z :=
  read_ptr vm (vfsmnt + get_obj_offset p "vfsmount" "mnt_root").
Definition mnt_parent (p : Profile) (vm : AddressSpace) (vfsmnt : Z) : Z :=
  read_ptr vm (vfsmnt + get_obj_offset p "vfsmount" "mnt_parent").
Definition mnt_mountpoint (p : Profile) (vm : AddressSpace) (vfsmnt : Z) : Z :=
  read_ptr vm (vfsmnt + get_obj_offset p "vfsmount" "mnt_mountpoint").

(** [ptr.dereference_as("String", length = n)] *)
Definition dereference_as_String (vm : AddressSpace) (ptr length : Z) : string :=
  String.substring 0 (Z.to_nat length) (read_str vm ptr).

(** The condition of the [while] in [do_get_path]. *)
Definition walk_cond (p : Profile) (vm : AddressSpace)
    (rdentry rmnt dentry vfsmnt : Z) : bool :=
  (negb (dentry =? rdentry) || negb (vfsmnt =? rmnt))
  && is_valid_address vm (d_name_name p vm dentry).

(** The [while] loop of [do_get_path]; it answers the collected [ret_path]
    (leaf first), or [None] when [fuel] iterations did not end it. *)
Fixpoint path_loop (fuel : nat) (p : Profile) (vm : AddressSpace)
    (rdentry rmnt dentry vfsmnt : Z) (ret_path : list string)
  : option (list string) :=
  match fuel with
  | O => None
  | S fuel' =>
      if walk_cond p vm rdentry rmnt dentry vfsmnt then
        let dname := dereference_as_String vm (d_name_name p vm dentry)
                       MAX_STRING_LENGTH in
        let ret_path := ret_path ++ [strip "/" dname] in
        if (dentry =? mnt_root p vm vfsmnt) || (dentry =? d_parent p vm dentry)
        then
          if mnt_parent p vm vfsmnt =? vfsmnt then Some ret_path
          else path_loop fuel' p vm rdentry rmnt
                 (mnt_mountpoint p vm vfsmnt) (mnt_parent p vm vfsmnt) ret_path
        else
          let parent := d_parent p vm dentry in
          path_loop fuel' p vm rdentry rmnt parent vfsmnt ret_path
      else Some ret_path
  end.

(** One iteration of that loop, seen from outside: whether it is the last
    one (the condition fails, or the [break] is taken), and the dentry and
    mount the next one starts from. *)
Definition walk_stops (p : Profile) (vm : AddressSpace)
    (rdentry rmnt : Z) (st : Z * Z) : bool :=
  let '(dentry, vfsmnt) := st in
  negb (walk_cond p vm rdentry rmnt dentry vfsmnt)
  || (((dentry =? mnt_root p vm vfsmnt) || (dentry =? d_parent p vm dentry))
      && (mnt_parent p vm vfsmnt =? vfsmnt)).

Definition walk_next (p : Profile) (vm : AddressSpace) (st : Z * Z) : Z * Z :=
  let '(dentry, vfsmnt) := st in
  if (dentry =? mnt_root p vm vfsmnt) || (dentry =? d_parent p vm dentry)
  then (mnt_mountpoint p vm vfsmnt, mnt_parent p vm vfsmnt)
  else (d_parent p vm dentry, vfsmnt).

(** The dentry and mount the walk is at after [n] iterations. *)
Fixpoint walk_chain (p : Profile) (vm : AddressSpace) (n : nat) (st : Z * Z)
  : Z * Z :=
  match n with
  | O => st
  | S n' => walk_chain p vm n' (walk_next p vm st)
  end.

(** What [do_get_path] returns: the empty list, or a string. *)
Inductive path_result : Type :=
| EmptyList
| PathStr (s : string).

(** The lines of [do_get_path] after the loop, on the collected [ret_path]
    and the inode number. *)
Definition format_path (ret_path : list string) (ino : Z) : path_result :=
  let ret_path := rev ret_path in
  match ret_path with
  | [] => EmptyList
  | _ =>
      let ret_val :=
        join "/" (List.filter (fun s => negb (String.eqb s "")) ret_path) in
      if startswith ret_val "socket:" || startswith ret_val "pipe:" then
        if negb (has_char "]" ret_val)
        then PathStr (drop_last ret_val +:+ ":[" +:+ str_of_int ino +:+ "]")
        else PathStr (remove_char "/" ret_val)
      else if negb (String.eqb ret_val "inotify") then PathStr ("/" +:+ ret_val)
      else PathStr ret_val
  end.

Definition do_get_path (fuel : nat) (p : Profile) (vm : AddressSpace)
    (rdentry rmnt dentry vfsmnt : Z) : option path_result :=
  let inode := d_inode p vm dentry in
  if negb (is_valid_address vm rdentry) || negb (is_valid_address vm dentry)
  then Some EmptyList
  else
    ret_path ← path_loop fuel p vm rdentry rmnt dentry vfsmnt [];
    Some (format_path ret_path (i_ino p vm inode)).

(** The joined string the post-processing works on. *)
Definition joined (ret_path : list string) : string :=
  join "/" (List.filter (fun s => negb (String.eqb s "")) (rev ret_path)).

(** The post-processing as section 4.7 of the specification words it: the
    inode number is appended to the path. *)
Definition spec_format_path (ret_val : string) (ino : Z) : string :=
  if startswith ret_val "socket:" || startswith ret_val "pipe:" then
    if negb (has_char "]" ret_val)
    then ret_val +:+ ":[" +:+ str_of_int ino +:+ "]"
    else remove_char "/" ret_val
  else if String.eqb ret_val "inotify" then ret_val
  else "/" +:+ ret_val.

(** [get_partial_path]: the loop, with [fuel]. *)
Fixpoint partial_loop (fuel : nat) (p : Profile) (vm : AddressSpace)
    (dentry : Z) (path : list string) : option (list string) :=
  match fuel with
  | O => None
  | S fuel' =>
      if is_valid_address vm dentry && negb (dentry =? d_parent p vm dentry) then
        let ptr := d_name_name p vm dentry in
        let name := dereference_as_String vm ptr 255 in
        let path := if is_valid_address vm ptr then path ++ [name] else path in
        partial_loop fuel' p vm (d_parent p vm dentry) path
      else Some path
  end.

Definition get_partial_path (fuel : nat) (p : Profile) (vm : AddressSpace)
    (dentry : Z) : option string :=
  path ← partial_loop fuel p vm dentry [];
  Some (join "/" (rev path)).

(** ** Known-address classification *)

(** A module range as [get_modules] lists it. *)
Definition module_range : Type := string * Z * Z.

(** [address_in_module]: the name of the first module whose range holds the
    address. *)
Fixpoint address_in_module (module_list : list module_range) (address : Z)
  : option string :=
  match module_list with
  | [] => None
  | (name, start, end_) :: rest =>
      if (start <=? address) && (address <? end_) then Some name
      else address_in_module rest address
  end.

(** Python 2 orders [None] below every number. *)
Definition py_le_opt (a : option Z) (b : Z) : bool :=
  match a with
  | Some a => a <=? b
  | None => true
  end.
Definition py_lt_opt (a : Z) (b : option Z) : bool :=
  match b with
  | Some b => a <? b
  | None => false
  end.

(** A module name in a condition: [None] and the empty string are false. *)
Definition name_true (name : option string) : bool :=
  match name with
  | Some s => negb (String.eqb s "")
  | None => false
  end.

Definition is_known_address (p : Profile) (addr : Z) (modules : list module_range)
  : Z :=
  let text := get_symbol p "_text" in
  let etext := get_symbol p "_etext" in
  if (py_le_opt text addr && py_lt_opt addr etext)
     || name_true (address_in_module modules addr)
  then 1 else 0.

(** The cache step inside [verify_ops]: the classification of [addr] and the
    [known_addrs] dictionary after it. *)
Definition classify (p : Profile) (modules : list module_range)
    (known_addrs : gmap Z Z) (addr : Z) : Z * gmap Z Z :=
  match known_addrs !! addr with
  | Some known => (known, known_addrs)
  | None =>
      let known := is_known_address p addr modules in
      (known, <[addr := known]> known_addrs)
  end.

(** [fops.m(check)]: the function pointer stored in member [check]. *)
Definition ops_member (p : Profile) (ops_type : string) (fops : Z) (check : string)
  : Pointer :=
  PointerAt (fops + get_obj_offset p ops_type check).

(** [verify_ops], run to the end: the pairs it yields and the dictionary it
    leaves in [obj_ref.known_addrs]. *)
Fixpoint verify_ops (p : Profile) (vm : AddressSpace) (known_addrs : gmap Z Z)
    (ops_type : string) (fops : Z) (op_members : list string)
    (modules : list module_range) : list (string * Z) * gmap Z Z :=
  match op_members with
  | [] => ([], known_addrs)
  | check :: rest =>
      let addr := ops_member p ops_type fops check in
      if ptr_true vm addr && negb (ptr_v vm addr =? 0) then
        let '(known, known_addrs) := classify p modules known_addrs (ptr_v vm addr) in
        let '(ys, known_addrs) :=
          verify_ops p vm known_addrs ops_type fops rest modules in
        if known =? 0 then ((check, ptr_v vm addr) :: ys, known_addrs)
        else (ys, known_addrs)
      else verify_ops p vm known_addrs ops_type fops rest modules
  end.

(** Classifying a run of addresses one after the other. *)
Fixpoint classify_all (p : Profile) (modules : list module_range)
    (known_addrs : gmap Z Z) (addrs : list Z) : gmap Z Z :=
  match addrs with
  | [] => known_addrs
  | a :: rest => classify_all p modules (snd (classify p modules known_addrs a)) rest
  end.

(** The segment [do_get_path] records for a dentry. *)
Definition dname (p : Profile) (vm : AddressSpace) (dentry : Z) : string :=
  strip "/" (dereference_as_String vm (d_name_name p vm dentry) MAX_STRING_LENGTH).

(** [ds] is a run of dentries inside the mount [vfsmnt], each the child of
    the next and the last a child of [rdentry]: none is [rdentry], the
    mount's root or its own parent, and all have a valid name pointer. *)
Fixpoint dentry_chain (p : Profile) (vm : AddressSpace) (vfsmnt rdentry : Z)
    (ds : list Z) : bool :=
  match ds with
  | [] => true
  | d :: rest =>
      negb (d =? rdentry)
      && is_valid_address vm (d_name_name p vm d)
      && negb (d =? mnt_root p vm vfsmnt)
      && negb (d =? d_parent p vm d)
      && (d_parent p vm d =? hd rdentry rest)
      && dentry_chain p vm vfsmnt rdentry rest
  end.

(** [ds] is a run of valid dentries, each the child of the next and the
    last a child of [top], where the walk of [get_partial_path] ends: [top]
    is invalid or its own parent. *)
Fixpoint partial_chain (p : Profile) (vm : AddressSpace) (top : Z) (ds : list Z)
  : bool :=
  match ds with
  | [] => negb (is_valid_address vm top) || (top =? d_parent p vm top)
  | d :: rest =>
      is_valid_address vm d
      && negb (d =? d_parent p vm d)
      && (d_parent p vm d =? hd top rest)
      && partial_chain p vm top rest
  end.

(** The names [get_partial_path] collects along [ds]: a dentry whose name
    pointer is invalid gives none. *)
Definition partial_names (p : Profile) (vm : AddressSpace) (ds : list Z)
  : list string :=
  ds ≫= (fun d =>
    if is_valid_address vm (d_name_name p vm d)
    then [dereference_as_String vm (d_name_name p vm d) 255] else []).

(** [nodes] is a linked list: each node is valid and its [list_member]
    points to the next, the last one's to an address that is not valid. *)
Fixpoint list_chain (p : Profile) (vm : AddressSpace)
    (struct_name list_member : string) (nodes : list Z) (last_next : Z) : bool :=
  match nodes with
  | [] => negb (is_valid_address vm last_next)
  | n :: rest =>
      is_valid_address vm n
      && (read_ptr vm (n + get_obj_offset p struct_name list_member)
          =? hd last_next rest)
      && list_chain p vm struct_name list_member rest last_next
  end.

(** Every entry of the dictionary is what [is_known_address] gives. *)
Definition cache_consistent (p : Profile) (modules : list module_range)
    (known_addrs : gmap Z Z) : Prop :=
  forall a known, known_addrs !! a = Some known ->
    known = is_known_address p a modules.

(** The members [verify_ops] is meant to report: a function pointer that is
    valid, not null, and outside the kernel text and every module. *)
Definition op_unknown (p : Profile) (vm : AddressSpace) (ops_type : string)
    (fops : Z) (modules : list module_range) (check : string) : bool :=
  let addr := ops_member p ops_type fops check in
  ptr_true vm addr && negb (ptr_v vm addr =? 0)
  && (is_known_address p (ptr_v vm addr) modules =? 0).

(** ** Other helpers of [common.py] *)

(** [walk_internal_list]: the objects it yields, following [list_member]
    until the pointer is one Python takes for false; [None] when [fuel]
    iterations did not reach such a pointer.  [list_start] is the value of
    the pointer the walk starts from. *)
Fixpoint walk_internal_list (fuel : nat) (p : Profile) (vm : AddressSpace)
    (struct_name list_member : string) (list_start : Z)
  : option (list TypedObject) :=
  match fuel with
  | O => None
  | S fuel' =>
      if is_valid_address vm list_start then
        let list_struct := Object struct_name list_start in
        rest ← walk_internal_list fuel' p vm struct_name list_member
                 (read_ptr vm (list_start + get_obj_offset p struct_name list_member));
        Some (list_struct :: rest)
      else Some []
  end.

(** [get_obj]: the object of type [sname] whose member [member] lies at
    [ptr]. *)
Definition get_obj (p : Profile) (ptr : Z) (sname member : string) : TypedObject :=
  let offset := get_obj_offset p sname member in
  let addr := ptr - offset in
  Object sname addr.

(** [SHMEM_I]; [inode] is the address of the inode object. *)
Definition SHMEM_I (p : Profile) (inode : Z) : TypedObject :=
  let offset := get_obj_offset p "shmem_inode_info" "vfs_inode" in
  Object "shmem_inode_info" (inode - offset).

(** The address of member [member] of a typed object. *)
Definition member_addr (p : Profile) (o : TypedObject) (member : string) : Z :=
  obj_offset o + get_obj_offset p (obj_type o) member.

(** The mode constants [S_ISDIR] and [S_ISREG] take from
    [volatility.plugins.linux.flags], a module that is not among the
    sources: they are parameters here. *)
Record linux_flags : Type := {
  S_IFMT : Z;
  S_IFDIR : Z;
  S_IFREG : Z
}.

Definition S_ISDIR (fl : linux_flags) (mode : Z) : bool :=
  Z.land mode (S_IFMT fl) =? S_IFDIR fl.

Definition S_ISREG (fl : linux_flags) (mode : Z) : bool :=
  Z.land mode (S_IFMT fl) =? S_IFREG fl.

(** ** The process tree *)

(** [_make_process_dict], on the processes [filter_processes] lists. *)
Definition _make_process_dict (procs : list EPROCESS) : gmap Z EPROCESS :=
  foldl (fun result eprocess => <[UniqueProcessId eprocess := eprocess]> result)
        ∅ procs.

(** Python leaves the order of a dictionary's items open; [order d] lists
    the items of [d] in the order [keys()] and [values()] give them. *)
Definition dict_order : Type := gmap Z EPROCESS -> list (Z * EPROCESS).

(** A row of the table: the padding and the process. *)
Definition row : Type := nat * EPROCESS.

(** The [for task in process_dict.values()] loop of [draw_children], over
    the list [tasks] taken when the call began; [rec] is the recursive
    call. *)
Fixpoint draw_each (rec : Z -> gmap Z EPROCESS -> option (list row * gmap Z EPROCESS))
    (pad : nat) (pid : Z) (tasks : list EPROCESS)
    (process_dict : gmap Z EPROCESS) (rows : list row)
  : option (list row * gmap Z EPROCESS) :=
  match tasks with
  | [] => Some (rows, process_dict)
  | task :: tasks' =>
      if decide (InheritedFromUniqueProcessId task <> pid)
      then draw_each rec pad pid tasks' process_dict rows
      else
        let rows := rows ++ [(pad, task)] in
        let process_dict := delete (UniqueProcessId task) process_dict in
        match rec (UniqueProcessId task) process_dict with
        | Some (rows', process_dict) =>
            draw_each rec pad pid tasks' process_dict (rows ++ rows')
        | None => None
        end
  end.

(** [draw_children], with the shared [process_dict] threaded through: the
    rows written and the dictionary left.  [None] when the recursion is
    deeper than [fuel]. *)
Fixpoint draw_children (order : dict_order) (fuel : nat) (pad : nat) (pid : Z)
    (process_dict : gmap Z EPROCESS) : option (list row * gmap Z EPROCESS) :=
  match fuel with
  | O => None
  | S fuel' =>
      draw_each (draw_children order fuel' (S pad)) pad pid
        ((order process_dict).*2) process_dict []
  end.

(** The [while process_dict:] loop of [render]. *)
Fixpoint render_loop (order : dict_order) (fuel : nat)
    (process_dict : gmap Z EPROCESS) (rows : list row) : option (list row) :=
  match fuel with
  | O => None
  | S fuel' =>
      if decide (process_dict = ∅) then Some rows
      else
        match (order process_dict).*1 with
        | [] => None
        | key0 :: _ =>
            root ← _find_root (S fuel') process_dict key0;
            '(rows', process_dict) ← draw_children order (S fuel') 0 root process_dict;
            render_loop order fuel' process_dict (rows ++ rows')
        end
  end.

(** The rows [render] writes for the processes listed. *)
Definition render (order : dict_order) (fuel : nat) (procs : list EPROCESS)
  : option (list row) :=
  render_loop order fuel (_make_process_dict procs) [].

(** Every key of the dictionary is the PID of the process stored under it. *)
Definition keyed (process_dict : gmap Z EPROCESS) : Prop :=
  forall k e, process_dict !! k = Some e -> UniqueProcessId e = k.

(** ** The claims of the specification that the code departs from, as stated *)

(** Section 4.5 and property 7: one pair per online CPU, for exactly the
    online indices, in ascending order. *)
Definition spec_per_cpu_walk (p : Profile) (vm : AddressSpace)
    (per_var var_type : string) : Prop :=
  forall cpus, online_cpus p vm = Ok cpus ->
    exists ys, walk_per_cpu_var p vm per_var var_type = Ok ys /\ ys.*1 = cpus.

(** Section 4.2, flat model: the offset is the product with the size of the
    page structure. *)
Definition spec_phys_addr_flat (p : Profile) (vm : AddressSpace) (page : Z) : Prop :=
  forall a, if_sym (get_profile_symbol p "mem_map") = Some a ->
    phys_addr_of_page p vm page
    = Ok (spec_phys_offset page (read_ptr vm a) (get_obj_size p "page")).

(** Section 4.7: the post-processing of a non-empty reconstructed path. *)
Definition spec_path_format (ret_path : list string) (ino : Z) : Prop :=
  ret_path <> [] ->
  format_path ret_path ino = PathStr (spec_format_path (joined ret_path) ino).

(** Invariant 4 and property 2: for the inode, file reconstruction returns
    exactly the declared number of bytes, the bytes of a page that is absent
    from the page cache being zero. *)
Definition spec_file_contents_length (p : Profile) (vm : AddressSpace)
    (phys_as : PhysicalSpace) (inode : Z) : Prop :=
  exists data,
    get_file_contents p vm phys_as inode = Ok data
    /\ Z.of_nat (length data) = i_size p vm inode
    /\ (forall k : nat, Z.of_nat k < i_size p vm inode ->
          page_absent p vm inode (Z.of_nat k / 4096) ->
          data !! k = Some Byte.x00).

(** Invariant 2 and property 3: the walk returns within some fixed bound. *)
Definition spec_path_walk_terminates (p : Profile) (vm : AddressSpace)
    (rdentry rmnt dentry vfsmnt : Z) : Prop :=
  exists fuel ret, do_get_path fuel p vm rdentry rmnt dentry vfsmnt = Some ret.

(** ** A small image for the examples *)

Definition table (l : list (Z * Z)) (a : Z) : Z :=
  match List.find (fun kv => fst kv =? a) l with
  | Some kv => snd kv
  | None => 0
  end.

Definition str_table (l : list (Z * string)) (a : Z) : string :=
  match List.find (fun kv => fst kv =? a) l with
  | Some kv => snd kv
  | None => ""
  end.

Definition sym_table (l : list (string * Z)) (name : string) : option Z :=
  snd <$> List.find (fun kv => String.eqb (fst kv) name) l.

(** Member offsets of the example layout (the struct name is not needed to
    tell them apart). *)
Definition demo_offsets : list (string * Z) :=
  [("d_parent", 0); ("d_inode", 8); ("d_name", 16); ("name", 0);
   ("mnt_root", 0); ("mnt_parent", 8); ("mnt_mountpoint", 16);
   ("i_mapping", 0); ("i_size", 16); ("i_ino", 24);
   ("page_tree", 8); ("rnode", 0); ("height", 0); ("slots", 8);
   ("tv_sec", 0); ("tv_nsec", 8);
   ("open", 0); ("read", 8); ("write", 16)].

Definition demo_symbols : list (string * Z) :=
  [("cpu_online_bits", 0x100); ("__per_cpu_offset", 0x200);
   ("per_cpu__runqueues", 0x8000);
   ("mem_map", 0x300);
   ("wall_to_monotonic", 0x400); ("total_sleep_time", 0x410);
   ("_text", 0xc0000000); ("_etext", 0xc0800000)].

Definition demo_profile : Profile := {|
  get_symbol := sym_table demo_symbols;
  get_obj_size := fun name => if String.eqb name "page" then 32 else 0;
  get_obj_offset := fun _ member => default 0 (sym_table demo_offsets member)
|}.

(** The same profile for a sparse-memory kernel: [mem_section] in place of
    [mem_map]. *)
Definition demo_sparse_profile : Profile := {|
  get_symbol := sym_table [("mem_section", 0x300)];
  get_obj_size := fun name => if String.eqb name "page" then 32 else 0;
  get_obj_offset := fun _ member => default 0 (sym_table demo_offsets member)
|}.

Definition demo_mem : list (Z * Z) :=
  [ (* online-CPU bitmap 0b00000101 and three per-CPU offsets *)
    (0x100, 5); (0x200, 0x10000); (0x208, 0x20000); (0x210, 0x30000);
    (* mem_map *)
    (0x300, 0x100000);
    (* wall_to_monotonic = (-100, 0), total_sleep_time = (0, 0) *)
    (0x400, -100); (0x408, 0); (0x410, 0); (0x418, 0);
    (* dentries 0x1000 and 0x2000 are each other's parent *)
    (0x1000, 0x2000); (0x1008, 0x7000); (0x1010, 0x4000);
    (0x2000, 0x1000); (0x2008, 0x7000); (0x2010, 0x4100);
    (* the mount 0x3000: root dentry 0x5000, its own parent *)
    (0x3000, 0x5000); (0x3008, 0x3000); (0x3010, 0x5000);
    (* the root dentry 0x5000, its own parent, and a child 0x6000 *)
    (0x5000, 0x5000); (0x5008, 0x7000); (0x5010, 0x4200);
    (0x6000, 0x5000); (0x6008, 0x7000); (0x6010, 0x4300);
    (* inode 0x7000: mapping 0x7100, size 5000, number 999;
       the page tree at 0x7108 holds one direct page pointer *)
    (0x7000, 0x7100); (0x7010, 5000); (0x7018, 999);
    (0x7108, 0x100040);
    (* an indirect radix tree root at 0x9000: node 0xa000 of height 2 *)
    (0x9000, 0xa001); (0xa000, 2); (0xa038, 0x100080);
    (* an operations table at 0xb000 *)
    (0xb000, 0xc0001000); (0xb008, 0xd0000000); (0xb010, 0xd0000000) ].

Definition demo_strings : list (Z * string) :=
  [(0x4000, "a"); (0x4100, "b"); (0x4200, "/"); (0x4300, "etc")].

Definition demo_vm : AddressSpace := {|
  ptr_width := W64;
  mem := table demo_mem;
  is_valid_address := fun a => negb (a =? 0);
  read_str := str_table demo_strings
|}.

Definition demo_phys : PhysicalSpace := {|
  phys_read := fun _ len => Some (replicate (Z.to_nat len) Byte.x01)
|}.

(** A process map whose parent links form a cycle (1 and 2) and a self-loop
    (4); 7 hangs below the cycle and 9 below a PID that is not in the map. *)
Definition demo_pids : gmap Z EPROCESS :=
  list_to_map
    [(1, {| UniqueProcessId := 1; InheritedFromUniqueProcessId := 2 |});
     (2, {| UniqueProcessId := 2; InheritedFromUniqueProcessId := 1 |});
     (4, {| UniqueProcessId := 4; InheritedFromUniqueProcessId := 4 |});
     (7, {| UniqueProcessId := 7; InheritedFromUniqueProcessId := 1 |});
     (9, {| UniqueProcessId := 9; InheritedFromUniqueProcessId := 0 |})].

(** ** A second small image *)

Definition extra_mem : list (Z * Z) :=
  [ (* an indirect radix tree root at 0x9100 whose node 0xa100 has height 0 *)
    (0x9100, 0xa101); (0xa100, 0);
    (* inode 0x7200: mapping 0x7300 with the indirect tree of height 1 at
       0x7308, node 0xa200, slot 1 holding a page pointer; size 300000 *)
    (0x7200, 0x7300); (0x7210, 300000); (0x7308, 0xa201); (0xa200, 1);
    (0xa210, 0x100040);
    (* inode 0x7400: mapping 0x7500, the tree at 0x7508 has the height-0
       node; size 10 *)
    (0x7400, 0x7500); (0x7410, 10); (0x7508, 0xa101);
    (* mem_map *)
    (0x300, 0x100000);
    (* a list of three nodes linked through the member at offset 8 *)
    (0x6108, 0x6200); (0x6208, 0x6300); (0x6308, 0);
    (* dentries: 0x5000 is the root, 0x6000 "etc" below it, 0x6400
       "passwd" below that, 0x6500 with a bad name pointer below 0x6400 *)
    (0x5000, 0x5000); (0x5010, 0x4200);
    (0x6000, 0x5000); (0x6010, 0x4300);
    (0x6400, 0x6000); (0x6410, 0x4400);
    (0x6500, 0x6400); (0x6510, 0);
    (0x3000, 0x5000); (0x3008, 0x3000); (0x3010, 0x5000) ].

Definition extra_vm : AddressSpace := {|
  ptr_width := W64;
  mem := table extra_mem;
  is_valid_address := fun a => negb (a =? 0);
  read_str := str_table [(0x4200, "/"); (0x4300, "etc"); (0x4400, "passwd")]
|}.

(** The processes of the cyclic example, as [filter_processes] could list
    them; PID 9 is listed twice. *)
Definition demo_procs : list EPROCESS :=
  [{| UniqueProcessId := 9; InheritedFromUniqueProcessId := 8 |};
   {| UniqueProcessId := 1; InheritedFromUniqueProcessId := 2 |};
   {| UniqueProcessId := 2; InheritedFromUniqueProcessId := 1 |};
   {| UniqueProcessId := 4; InheritedFromUniqueProcessId := 4 |};
   {| UniqueProcessId := 7; InheritedFromUniqueProcessId := 1 |};
   {| UniqueProcessId := 9; InheritedFromUniqueProcessId := 0 |}].

(** A physical space whose reads all fail. *)
Definition failing_phys : PhysicalSpace := {|
  phys_read := fun _ _ => None
|}.

(** The usual values of the mode constants. *)
Definition demo_flags : linux_flags := {|
  S_IFMT := 0xf000;
  S_IFDIR := 0x4000;
  S_IFREG := 0x8000
|}.

(** * Checks on the example image *)

Example demo_online_cpus : online_cpus demo_profile demo_vm = Ok [0; 2].
Proof. reflexivity. Qed.

Example demo_walk_per_cpu_var :
  walk_per_cpu_var demo_profile demo_vm "runqueues" "rq"
  = Ok [(0, Object "rq" 0x18000); (1, Object "rq" 0x28000); (2, Object "rq" 0x38000)].
Proof. reflexivity. Qed.

Example demo_phys_addr :
  phys_addr_of_page demo_profile demo_vm 0x100040 = Ok 8192.
Proof. reflexivity. Qed.

Example demo_boot_time : get_boot_time 1 demo_profile demo_vm = Some (Ok 100).
Proof. reflexivity. Qed.

Example demo_path_etc :
  do_get_path 3 demo_profile demo_vm 0x5000 0x3000 0x6000 0x3000
  = Some (PathStr "/etc").
Proof. reflexivity. Qed.

Example demo_find_root_cycle : _find_root 6 demo_pids 7 = Some 1.
Proof. vm_compute. reflexivity. Qed.

Example demo_find_root_self : _find_root 6 demo_pids 4 = Some 4.
Proof. vm_compute. reflexivity. Qed.

Example demo_find_root_absent : _find_root 6 demo_pids 9 = Some 0.
Proof. vm_compute. reflexivity. Qed.

Example demo_lookup_direct :
  radix_tree_lookup_slot demo_profile demo_vm 0x7108 0 = Ok (Some (PointerAt 0x7108)).
Proof. reflexivity. Qed.

Example demo_lookup_indirect :
  radix_tree_lookup_reads demo_profile demo_vm 0x9000 70
  = Ok (Some (PointerAt 0xa038), [(0xa000, 1); (0xa000, 6)]).
Proof. reflexivity. Qed.

Example demo_format_socket : format_path ["socket:"%string] 999 = PathStr "socket:[999]".
Proof. reflexivity. Qed.

Example demo_format_socket_open :
  format_path ["socket:[12345"%string] 999 = PathStr "socket:[1234:[999]".
Proof. reflexivity. Qed.

Example demo_verify_ops :
  fst (verify_ops demo_profile demo_vm ∅ "file_operations" 0xb000
         ["open"; "read"; "write"]%string [])
  = [("read"%string, 0xd0000000); ("write"%string, 0xd0000000)].
Proof. vm_compute. reflexivity. Qed.

(** * Boot time *)

Section BootTime.

Local Ltac div_lia :=
  unfold nsecs_per in *; Z.to_euclidean_division_equations; lia.

Lemma carry_loop_spec (fuel : nat) :
  forall secs nsecs,
    Z.max 0 (nsecs / nsecs_per) < Z.of_nat fuel ->
    carry_loop fuel secs nsecs
    = Some (if nsecs_per <=? nsecs
            then (secs + nsecs / nsecs_per, nsecs mod nsecs_per)
            else (secs, nsecs)).
Proof.
  induction fuel as [|fuel IH]; intros secs nsecs Hfuel; [lia|].
  cbn [carry_loop].
  destruct (Z.leb_spec nsecs_per nsecs) as [Hge|Hlt]; [|reflexivity].
  rewrite IH by (div_lia).
  destruct (Z.leb_spec nsecs_per (nsecs - nsecs_per)); f_equal; f_equal;
    div_lia.
Qed.

Lemma borrow_loop_spec (fuel : nat) :
  forall secs nsecs,
    Z.max 0 (- (nsecs / nsecs_per)) < Z.of_nat fuel ->
    borrow_loop fuel secs nsecs
    = Some (if nsecs <? 0
            then (secs + nsecs / nsecs_per, nsecs mod nsecs_per)
            else (secs, nsecs)).
Proof.
  induction fuel as [|fuel IH]; intros secs nsecs Hfuel; [lia|].
  cbn [borrow_loop].
  destruct (Z.ltb_spec nsecs 0) as [Hneg|Hpos]; [|reflexivity].
  rewrite IH by (div_lia).
  destruct (Z.ltb_spec (nsecs + nsecs_per) 0); f_equal; f_equal;
    div_lia.
Qed.

(** Both loops, one after the other, leave the floor quotient carried into
    the seconds and the remainder in the nanoseconds. *)
Lemma normalize_loops (fuel : nat) (secs nsecs : Z) :
  Z.abs nsecs / nsecs_per + 1 < Z.of_nat fuel ->
  carry_loop fuel secs nsecs ≫= (fun '(s, n) => borrow_loop fuel s n)
  = Some (secs + nsecs / nsecs_per, nsecs mod nsecs_per).
Proof.
  intros Hfuel.
  rewrite carry_loop_spec by (div_lia).
  destruct (Z.leb_spec nsecs_per nsecs) as [Hge|Hlt]; cbn.
  - rewrite borrow_loop_spec by (div_lia).
    destruct (Z.ltb_spec (nsecs mod nsecs_per) 0); [div_lia|].
    reflexivity.
  - rewrite borrow_loop_spec by (div_lia).
    destruct (Z.ltb_spec nsecs 0); [reflexivity|].
    f_equal; f_equal; div_lia.
Qed.

Lemma boot_time_of_spec (fuel : nat) (wall_sec wall_nsec sleep_sec sleep_nsec : Z) :
  Z.abs (wall_nsec + sleep_nsec) / nsecs_per + 1 < Z.of_nat fuel ->
  boot_time_of fuel wall_sec wall_nsec sleep_sec sleep_nsec
  = Some (norm_secs wall_sec wall_nsec sleep_sec sleep_nsec).
Proof.
  intros Hfuel. unfold boot_time_of, norm_secs.
  pose proof (normalize_loops fuel ((wall_sec + sleep_sec) * -1)
                ((wall_nsec + sleep_nsec) * -1)) as Hn.
  destruct (carry_loop fuel _ _) as [[s n]|] eqn:Hc; cbn in Hn |- *.
  - rewrite Hn by (div_lia). cbn.
    f_equal. div_lia.
  - discriminate Hn. div_lia.
Qed.

Lemma get_boot_time_fields (fuel : nat) (p : Profile) (vm : AddressSpace)
    (wall timeo : Z) :
  get_time_vars p vm = Ok (wall, timeo) ->
  get_boot_time fuel p vm
  = Ok <$> boot_time_of fuel (tv_sec p vm wall) (tv_nsec p vm wall)
                             (tv_sec p vm timeo) (tv_nsec p vm timeo).
Proof. intros Hv. unfold get_boot_time. rewrite Hv. reflexivity. Qed.

(** C6: on any four integer time fields [get_boot_time] negates the two sums,
    then carries or borrows whole seconds until the nanoseconds lie in
    [0, 10^9), the total time being preserved, and returns the normalised
    seconds; given enough iterations the loops end.  It reads the fields
    through [get_time_vars], and for wall = (-100, 0), sleep = (0, 0) the
    result is 100. *)
Theorem get_boot_time_normalizes :
  (forall (wall_sec wall_nsec sleep_sec sleep_nsec : Z) (fuel : nat),
     Z.abs (wall_nsec + sleep_nsec) / nsecs_per + 1 < Z.of_nat fuel ->
     let secs := - (wall_sec + sleep_sec) in
     let nsecs := - (wall_nsec + sleep_nsec) in
     let secs' := norm_secs wall_sec wall_nsec sleep_sec sleep_nsec in
     let nsecs' := norm_nsecs wall_nsec sleep_nsec in
     carry_loop fuel secs nsecs ≫= (fun '(s, n) => borrow_loop fuel s n)
     = Some (secs', nsecs')
     /\ 0 <= nsecs' < nsecs_per
     /\ secs' * nsecs_per + nsecs' = secs * nsecs_per + nsecs
     /\ boot_time_of fuel wall_sec wall_nsec sleep_sec sleep_nsec = Some secs')
  /\ (forall (p : Profile) (vm : AddressSpace) (wall timeo : Z) (fuel : nat),
        get_time_vars p vm = Ok (wall, timeo) ->
        Z.abs (tv_nsec p vm wall + tv_nsec p vm timeo) / nsecs_per + 1
          < Z.of_nat fuel ->
        get_boot_time fuel p vm
        = Some (Ok (norm_secs (tv_sec p vm wall) (tv_nsec p vm wall)
                              (tv_sec p vm timeo) (tv_nsec p vm timeo))))
  /\ boot_time_of 2 (-100) 0 0 0 = Some 100.
Proof.
  split; [|split].
  - intros ws wn ss sn fuel Hfuel secs nsecs secs' nsecs'.
    subst secs nsecs secs' nsecs'. unfold norm_secs, norm_nsecs.
    repeat split.
    + apply normalize_loops. rewrite Z.abs_opp. exact Hfuel.
    + div_lia.
    + div_lia.
    + div_lia.
    + apply boot_time_of_spec. exact Hfuel.
  - intros p vm wall timeo fuel Hv Hfuel.
    rewrite (get_boot_time_fields _ _ _ _ _ Hv), boot_time_of_spec by exact Hfuel.
    reflexivity.
  - reflexivity.
Qed.

(** The scenario of the specification, on the four fields and read from the
    example image. *)
Lemma get_boot_time_scenario :
  boot_time_of 2 (-100) 0 0 0 = Some (norm_secs (-100) 0 0 0)
  /\ get_boot_time 2 demo_profile demo_vm = Some (Ok 100).
Proof.
  split.
  - apply (proj1 get_boot_time_normalizes (-100) 0 0 0 2%nat).
    vm_compute. reflexivity.
  - apply (proj1 (proj2 get_boot_time_normalizes) demo_profile demo_vm
             0x400 0x410 2%nat).
    + reflexivity.
    + vm_compute. reflexivity.
Defined.

End BootTime.

(** * The process-tree root walk *)

Section FindRoot.

Implicit Types (pid_dict : gmap Z EPROCESS) (seen : gset Z) (pid : Z).

Lemma ancestor_S pid_dict n pid task :
  pid_dict !! pid = Some task ->
  ancestor pid_dict (S n) pid
  = ancestor pid_dict n (InheritedFromUniqueProcessId task).
Proof. intros H. cbn [ancestor]. rewrite H. reflexivity. Qed.

(** More fuel does not change an answer. *)
Lemma find_root_loop_mono (fuel : nat) :
  forall pid_dict seen pid res (fuel' : nat),
    find_root_loop fuel pid_dict seen pid = Some res ->
    (fuel <= fuel')%nat ->
    find_root_loop fuel' pid_dict seen pid = Some res.
Proof.
  induction fuel as [|fuel IH]; intros pid_dict seen pid res fuel' Hrun Hle;
    [discriminate|].
  destruct fuel' as [|fuel']; [lia|].
  cbn [find_root_loop] in *.
  destruct (pid_dict !! pid) as [task|]; [|exact Hrun].
  destruct (decide (pid ∈ seen)); [exact Hrun|].
  apply IH with (fuel' := fuel') in Hrun; [exact Hrun | lia].
Qed.

(** The loop, from any [seen] inside the map's keys: it ends within as many
    steps as there are keys not yet seen, at the first ancestor that is
    absent from the map or already seen, and [seen] has grown by exactly the
    ancestors passed on the way. *)
Lemma find_root_loop_spec (fuel : nat) :
  forall pid_dict seen pid,
    seen ⊆ dom pid_dict ->
    (size (dom pid_dict ∖ seen) < fuel)%nat ->
    exists (n : nat) (r : Z) (seen' : gset Z),
      find_root_loop fuel pid_dict seen pid = Some (r, seen')
      /\ (n <= size (dom pid_dict ∖ seen))%nat
      /\ r = ancestor pid_dict n pid
      /\ (forall i, (i < n)%nat ->
            is_Some (pid_dict !! ancestor pid_dict i pid)
            /\ ancestor pid_dict i pid ∉ seen)
      /\ (forall i j, (i < j < n)%nat ->
            ancestor pid_dict i pid <> ancestor pid_dict j pid)
      /\ (forall x, x ∈ seen' <->
            x ∈ seen \/ exists i, (i < n)%nat /\ x = ancestor pid_dict i pid)
      /\ (pid_dict !! r = None \/ r ∈ seen').
Proof.
  induction fuel as [|fuel IH]; intros pid_dict seen pid Hsub Hfuel; [lia|].
  cbn [find_root_loop].
  destruct (pid_dict !! pid) as [task|] eqn:Hpid.
  2:{ exists 0%nat, pid, seen.
      split; [reflexivity|]. split; [lia|]. split; [reflexivity|].
      split; [intros; lia|]. split; [intros; lia|].
      split; [|left; exact Hpid].
      intros x; split; [auto | intros [?|(i & ? & _)]; [assumption | lia]]. }
  destruct (decide (pid ∈ seen)) as [Hin|Hnotin].
  { exists 0%nat, pid, seen.
    split; [reflexivity|]. split; [lia|]. split; [reflexivity|].
    split; [intros; lia|]. split; [intros; lia|].
    split; [|right; exact Hin].
    intros x; split; [auto | intros [?|(i & ? & _)]; [assumption | lia]]. }
  assert (Hdom : pid ∈ dom pid_dict) by (apply elem_of_dom; eauto).
  assert (Hlt : (size (dom pid_dict ∖ ({[pid]} ∪ seen))
                 < size (dom pid_dict ∖ seen))%nat).
  { apply subset_size. split; [set_solver|].
    intros Hback. specialize (Hback pid). set_solver. }
  destruct (IH pid_dict ({[pid]} ∪ seen) (InheritedFromUniqueProcessId task))
    as (n & r & seen' & Hrun & Hn & Hr & Hvis & Hnodup & Hseen & Hstop).
  { set_solver. }
  { lia. }
  exists (S n), r, seen'. split; [exact Hrun|].
  split; [lia|].
  split; [rewrite (ancestor_S _ _ _ _ Hpid); exact Hr|].
  split; [|split; [|split]].
  - intros [|i] Hi.
    + simpl. split; [eauto | exact Hnotin].
    + rewrite (ancestor_S _ _ _ _ Hpid).
      destruct (Hvis i ltac:(lia)) as [Hs Hns]. split; [exact Hs | set_solver].
  - intros i j Hij. destruct j as [|j]; [lia|].
    rewrite (ancestor_S _ j _ _ Hpid).
    destruct i as [|i].
    + simpl. intros Heq. destruct (Hvis j ltac:(lia)) as [_ Hns].
      rewrite <- Heq in Hns. set_solver.
    + rewrite (ancestor_S _ i _ _ Hpid). apply Hnodup. lia.
  - intros x. rewrite Hseen. split.
    + intros [Hx|(i & Hi & ->)].
      * apply elem_of_union in Hx as [Hx|Hx]; [|left; exact Hx].
        apply elem_of_singleton in Hx as ->. right. exists 0%nat.
        split; [lia | reflexivity].
      * right. exists (S i). split; [lia|].
        rewrite (ancestor_S _ i _ _ Hpid). reflexivity.
    + intros [Hx|(i & Hi & ->)]; [left; set_solver|].
      destruct i as [|i].
      * left. simpl. set_solver.
      * right. exists i. split; [lia|].
        rewrite (ancestor_S _ i _ _ Hpid). reflexivity.
  - exact Hstop.
Qed.

(** C7: for every finite pid-to-process map and every starting PID,
    [_find_root] returns: at most one iteration per key of the map is needed.
    It returns the first PID on the parent chain that is either absent from
    the map or was visited before; the PIDs passed on the way are in the map
    and pairwise distinct.  This holds for maps with cycles and self-loops
    alike. *)
Theorem find_root_terminates pid_dict pid :
  exists (n : nat) (r : Z),
    (n <= size pid_dict)%nat
    /\ _find_root (S (size pid_dict)) pid_dict pid = Some r
    /\ (forall fuel : nat, (size pid_dict < fuel)%nat ->
          _find_root fuel pid_dict pid = Some r)
    /\ r = ancestor pid_dict n pid
    /\ (forall i, (i < n)%nat -> is_Some (pid_dict !! ancestor pid_dict i pid))
    /\ (forall i j, (i < j < n)%nat ->
          ancestor pid_dict i pid <> ancestor pid_dict j pid)
    /\ (pid_dict !! r = None
        \/ exists j, (j < n)%nat /\ r = ancestor pid_dict j pid).
Proof.
  destruct (find_root_loop_spec (S (size pid_dict)) pid_dict ∅ pid)
    as (n & r & seen' & Hrun & Hn & Hr & Hvis & Hnodup & Hseen & Hstop).
  { set_solver. }
  { rewrite difference_empty_L, size_dom. lia. }
  rewrite difference_empty_L, size_dom in Hn.
  exists n, r. split; [exact Hn|].
  split; [unfold _find_root; rewrite Hrun; reflexivity|].
  split.
  { intros fuel Hfuel. unfold _find_root.
    rewrite (find_root_loop_mono _ _ _ _ _ fuel Hrun) by lia. reflexivity. }
  split; [exact Hr|].
  split; [intros i Hi; apply (Hvis i Hi)|].
  split; [exact Hnodup|].
  destruct Hstop as [Habs|Hin]; [left; exact Habs|].
  right. apply Hseen in Hin as [Hin|Hin]; [set_solver | exact Hin].
Qed.

End FindRoot.

(** * Radix tree lookup *)

Section RadixTree.

Context (p : Profile) (vm : AddressSpace).

Lemma read_ptr_range (a : Z) : 0 <= read_ptr vm a < 2 ^ bits (ptr_width vm).
Proof.
  unfold read_ptr, wrap_unsigned. apply Z.mod_pos_bound.
  destruct (ptr_width vm); reflexivity.
Qed.

Lemma read_uint_range (a : Z) : 0 <= read_uint vm a < 2 ^ 32.
Proof. unfold read_uint, wrap_unsigned. apply Z.mod_pos_bound. reflexivity. Qed.

(** A pointer value is never the [-1] the loop variable starts with. *)
Lemma ptr_v_not_minus_one (ptr : Pointer) : (ptr_v vm ptr =? -1) = false.
Proof.
  apply Z.eqb_neq. unfold ptr_v. pose proof (read_ptr_range (ptr_offset ptr)). lia.
Qed.

(** The loop entered [levels + 1] levels above the leaves, with the matching
    shift: it never follows a slot, reads one slot of [node] per level and
    ends with the slot at the lowest six bits of [index]. *)
Lemma lookup_loop_eq (node index shift : Z) (height : nat) (reads : list (Z * Z)) :
  lookup_loop p vm node index shift height reads
  = if shift <? 0 then Raise ValueError else
    let idx := Z.land (Z.shiftr index shift) RADIX_TREE_MAP_MASK in
    match height with
    | S (S _ as height') =>
        lookup_loop p vm node index (shift - RADIX_TREE_MAP_SHIFT) height'
          (reads ++ [(node, idx)])
    | _ => Ok (node_slot p vm node idx, reads ++ [(node, idx)])
    end.
Proof. destruct height; reflexivity. Qed.

Lemma lookup_loop_spec (node index : Z) (levels : nat) :
  forall reads,
    lookup_loop p vm node index (Z.of_nat levels * RADIX_TREE_MAP_SHIFT)
      (S levels) reads
    = Ok (node_slot p vm node (Z.land index RADIX_TREE_MAP_MASK),
          reads ++ level_reads node index (S levels)).
Proof.
  induction levels as [|levels IH]; intros reads; rewrite lookup_loop_eq.
  - change (Z.of_nat 0 * RADIX_TREE_MAP_SHIFT) with 0.
    cbn [Z.ltb Z.compare level_reads]. rewrite Z.shiftr_0_r. reflexivity.
  - destruct (Z.ltb_spec (Z.of_nat (S levels) * RADIX_TREE_MAP_SHIFT) 0) as [Hneg|_].
    { unfold RADIX_TREE_MAP_SHIFT in Hneg. lia. }
    cbv zeta.
    replace (Z.of_nat (S levels) * RADIX_TREE_MAP_SHIFT - RADIX_TREE_MAP_SHIFT)
      with (Z.of_nat levels * RADIX_TREE_MAP_SHIFT)
      by (unfold RADIX_TREE_MAP_SHIFT; lia).
    rewrite IH, <- app_assoc. reflexivity.
Qed.

Lemma level_reads_length (node index : Z) (levels : nat) :
  length (level_reads node index levels) = levels.
Proof. induction levels; cbn; congruence. Qed.

Lemma level_reads_node (node index : Z) (levels : nat) :
  Forall (fun r => r.1 = node) (level_reads node index levels).
Proof. induction levels; cbn; constructor; auto. Qed.

(** C8: when the pointer stored in the root is not tagged indirect,
    [radix_tree_lookup_slot] returns the pointer object at the root's [rnode]
    field (whose value is that stored pointer) for index 0, and [None] for
    every index above 0. *)
Theorem radix_tree_lookup_direct (root index : Z) :
  radix_tree_is_indirect_ptr (ptr_v vm (root_rnode p root)) = 0 ->
  (index = 0 ->
     exists page,
       radix_tree_lookup_slot p vm root index = Ok (Some page)
       /\ page = root_rnode p root
       /\ ptr_v vm page = read_ptr vm (root + get_obj_offset p "radix_tree_root" "rnode"))
  /\ (0 < index -> radix_tree_lookup_slot p vm root index = Ok None).
Proof.
  intros Hdirect.
  unfold radix_tree_lookup_slot, radix_tree_lookup_reads. rewrite Hdirect.
  cbn [Z.eqb]. split.
  - intros ->. exists (root_rnode p root). repeat split; reflexivity.
  - intros Hpos. apply Z.ltb_lt in Hpos. rewrite Hpos. reflexivity.
Qed.

(** C10: for an indirect root whose node has height [h >= 1], and every
    index, the descent reads exactly [h] slots, every one of them from the
    top-level node (a slot read at one level is never followed to a child),
    and the slot returned is the top-level node's [slots[index & 63]]. *)
Theorem radix_tree_lookup_stays_at_top (root index : Z) :
  let rnode := ptr_v vm (root_rnode p root) in
  let node := radix_tree_indirect_to_ptr rnode in
  let h := node_height p vm node in
  radix_tree_is_indirect_ptr rnode <> 0 ->
  1 <= h ->
  exists reads,
    radix_tree_lookup_reads p vm root index
    = Ok (Some (node_slot p vm node (Z.land index 63)), reads)
    /\ reads = level_reads node index (Z.to_nat h)
    /\ Z.of_nat (length reads) = h
    /\ Forall (fun r => r.1 = node) reads
    /\ radix_tree_lookup_slot p vm root index
       = Ok (Some (node_slot p vm node (Z.land index 63))).
Proof.
  intros rnode node h Hind Hh.
  assert (Hrun : radix_tree_lookup_reads p vm root index
                 = Ok (Some (node_slot p vm node (Z.land index 63)),
                       level_reads node index (Z.to_nat h))).
  { unfold radix_tree_lookup_reads. fold rnode.
    apply Z.eqb_neq in Hind. rewrite Hind. fold node. fold h.
    destruct (Z.to_nat h) as [|levels] eqn:Hlev; [lia|].
    replace ((h - 1) * RADIX_TREE_MAP_SHIFT)
      with (Z.of_nat levels * RADIX_TREE_MAP_SHIFT) by lia.
    rewrite lookup_loop_spec. cbn [mbind result_bind].
    rewrite ptr_v_not_minus_one. reflexivity. }
  exists (level_reads node index (Z.to_nat h)).
  split; [exact Hrun|]. split; [reflexivity|].
  split; [rewrite level_reads_length; lia|].
  split; [apply level_reads_node|].
  unfold radix_tree_lookup_slot. rewrite Hrun. reflexivity.
Qed.

(** A node of height 0 makes the first shift negative, and [>>] raises. *)
Lemma radix_tree_lookup_height_zero (root index : Z) :
  let rnode := ptr_v vm (root_rnode p root) in
  radix_tree_is_indirect_ptr rnode <> 0 ->
  node_height p vm (radix_tree_indirect_to_ptr rnode) = 0 ->
  radix_tree_lookup_slot p vm root index = Raise ValueError.
Proof.
  intros rnode Hind Hzero.
  unfold radix_tree_lookup_slot, radix_tree_lookup_reads. fold rnode.
  apply Z.eqb_neq in Hind. rewrite Hind, Hzero. reflexivity.
Qed.

End RadixTree.

Lemma radix_tree_lookup_direct_demo :
  (0 = 0 ->
   exists page,
     radix_tree_lookup_slot demo_profile demo_vm 0x7108 0 = Ok (Some page)
     /\ page = root_rnode demo_profile 0x7108
     /\ ptr_v demo_vm page
        = read_ptr demo_vm (0x7108 + get_obj_offset demo_profile "radix_tree_root" "rnode"))
  /\ (0 < 0 -> radix_tree_lookup_slot demo_profile demo_vm 0x7108 0 = Ok None).
Proof.
  apply (radix_tree_lookup_direct demo_profile demo_vm 0x7108 0).
  vm_compute. reflexivity.
Defined.

Lemma radix_tree_lookup_stays_at_top_demo :
  exists reads,
    radix_tree_lookup_reads demo_profile demo_vm 0x9000 70
    = Ok (Some (PointerAt 0xa038), reads)
    /\ reads = [(0xa000, 1); (0xa000, 6)]
    /\ Z.of_nat (length reads) = 2
    /\ Forall (fun r => r.1 = 0xa000) reads
    /\ radix_tree_lookup_slot demo_profile demo_vm 0x9000 70
       = Ok (Some (PointerAt 0xa038)).
Proof.
  apply (radix_tree_lookup_stays_at_top demo_profile demo_vm 0x9000 70).
  - vm_compute. discriminate.
  - vm_compute. discriminate.
Defined.

(** * Physical address of a page *)

Section PhysAddr.

Context (p : Profile) (vm : AddressSpace).

(** C4, as the code has it: in the flat model, with the base read from the
    [mem_map] symbol, and in the sparse model, with the fixed base
    [0xea0000000000], [phys_addr_of_page] returns the floor quotient of
    [page - base] by the size of the page structure, shifted left by 12. *)
Theorem phys_addr_of_page_quotient (page : Z) :
  get_obj_size p "page" <> 0 ->
  (forall a, if_sym (get_profile_symbol p "mem_map") = Some a ->
     phys_addr_of_page p vm page
     = Ok (Z.shiftl ((page - read_ptr vm a) / get_obj_size p "page") 12))
  /\ (if_sym (get_profile_symbol p "mem_map") = None ->
      if_sym (get_profile_symbol p "mem_section") <> None ->
      phys_addr_of_page p vm page
      = Ok (Z.shiftl ((page - 0xea0000000000) / get_obj_size p "page") 12)).
Proof.
  intros Hsize. apply Z.eqb_neq in Hsize.
  unfold phys_addr_of_page, py_div. split.
  - intros a Ha. rewrite Ha. cbn [mbind result_bind]. rewrite Hsize. reflexivity.
  - intros Hflat Hsparse. rewrite Hflat.
    destruct (if_sym (get_profile_symbol p "mem_section")); [|congruence].
    cbn [mbind result_bind]. rewrite Hsize. reflexivity.
Qed.

(** The shift is a multiplication by the page size. *)
Lemma shiftl_12 (n : Z) : Z.shiftl n 12 = n * 4096.
Proof. rewrite Z.shiftl_mul_pow2 by lia. reflexivity. Qed.

Lemma phys_addr_of_page_no_model (page : Z) :
  if_sym (get_profile_symbol p "mem_map") = None ->
  if_sym (get_profile_symbol p "mem_section") = None ->
  phys_addr_of_page p vm page = Raise SystemExit.
Proof.
  intros Hflat Hsparse. unfold phys_addr_of_page. rewrite Hflat, Hsparse.
  reflexivity.
Qed.

End PhysAddr.

Lemma phys_addr_of_page_quotient_demo :
  phys_addr_of_page demo_profile demo_vm 0x100040 = Ok 8192
  /\ phys_addr_of_page demo_sparse_profile demo_vm (0xea0000000000 + 96) = Ok 12288.
Proof.
  split.
  - apply (proj1 (phys_addr_of_page_quotient demo_profile demo_vm 0x100040
                    ltac:(vm_compute; discriminate)) 0x300).
    vm_compute. reflexivity.
  - apply (proj2 (phys_addr_of_page_quotient demo_sparse_profile demo_vm
                    (0xea0000000000 + 96) ltac:(vm_compute; discriminate))).
    + vm_compute. reflexivity.
    + vm_compute. discriminate.
Defined.

(** The product the specification writes is not what the code returns: the
    page 64 bytes above the base of an array of 32-byte page structures is
    page frame 2, at physical offset 8192. *)
Lemma phys_addr_of_page_not_product :
  ~ spec_phys_addr_flat demo_profile demo_vm 0x100040.
Proof.
  intros Hspec. specialize (Hspec 0x300 eq_refl).
  vm_compute in Hspec. discriminate Hspec.
Qed.

(** * Per-CPU walk *)

Section PerCpu.

Context (p : Profile) (vm : AddressSpace).

Lemma mapM_Ok {A B : Type} (f : A -> result B) (g : A -> B) (l : list A) :
  (forall x, f x = Ok (g x)) -> mapM f l = Ok (g <$> l).
Proof.
  intros Hf. induction l as [|x l IH]; [reflexivity|].
  cbn [mapM]. rewrite Hf, IH. reflexivity.
Qed.

(** The last online CPU is the highest one. *)
Lemma cpus_of_bitmap_last (bmap last_cpu c : Z) :
  last (cpus_of_bitmap bmap) = Some last_cpu ->
  c ∈ cpus_of_bitmap bmap ->
  0 <= c <= last_cpu.
Proof.
  unfold cpus_of_bitmap.
  change (seqZ 0 8) with [0; 1; 2; 3; 4; 5; 6; 7].
  rewrite !filter_cons, filter_nil.
  repeat case_decide; cbn [last]; intros [= <-] Hc;
    repeat (apply elem_of_cons in Hc as [->|Hc]; [lia|]);
    apply elem_of_nil in Hc; contradiction.
Qed.

Lemma elem_of_cpus_of_bitmap (bmap c : Z) :
  c ∈ cpus_of_bitmap bmap <-> 0 <= c < 8 /\ bit_set bmap c = true.
Proof.
  unfold cpus_of_bitmap. rewrite list_elem_of_filter, elem_of_seqZ. tauto.
Qed.

(** C3, as the code has it: with some CPU among 0..7 online,
    [walk_per_cpu_var] yields one pair for every index from 0 up to the
    highest online one, in ascending order, each object lying at the
    per-CPU symbol plus that index's offset; every online CPU is among the
    indices, and so is every offline one below the highest.  For the bitmap
    0b00000101 the indices are 0, 1 and 2. *)
Theorem walk_per_cpu_var_range (per_var var_type : string)
    (bmap last_cpu offset_var cpu_var : Z) :
  cpu_bitmap p vm = Ok bmap ->
  last (cpus_of_bitmap bmap) = Some last_cpu ->
  get_profile_symbol p "__per_cpu_offset" = Some offset_var ->
  get_per_cpu_symbol p per_var = Some cpu_var ->
  exists ys,
    walk_per_cpu_var p vm per_var var_type = Ok ys
    /\ ys = (fun i => (i, Object var_type
                            (cpu_var + read_ulong vm (offset_var + i * ptr_bytes vm))))
            <$> seqZ 0 (last_cpu + 1)
    /\ ys.*1 = seqZ 0 (last_cpu + 1)
    /\ (forall c, c ∈ cpus_of_bitmap bmap -> c ∈ ys.*1)
    /\ (forall c, 0 <= c <= last_cpu -> c ∈ ys.*1)
    /\ (bmap = 5 -> ys.*1 = [0; 1; 2]).
Proof.
  intros Hbmap Hlast Hoff Hvar.
  eexists. split; [|split; [reflexivity|]].
  - unfold walk_per_cpu_var, online_cpus, last_item.
    rewrite Hbmap. cbn [mbind result_bind]. rewrite Hlast, Hoff.
    cbn [sym_addr mbind result_bind]. rewrite Hvar. cbn [sym_addr result_bind].
    apply mapM_Ok. reflexivity.
  - assert (Hidx : ((fun i => (i, Object var_type
                      (cpu_var + read_ulong vm (offset_var + i * ptr_bytes vm))))
                    <$> seqZ 0 (last_cpu + 1)).*1 = seqZ 0 (last_cpu + 1)).
    { rewrite <- list_fmap_compose. apply list_fmap_id. }
    rewrite Hidx. split; [reflexivity|]. split; [|split].
    + intros c Hc. apply elem_of_seqZ.
      pose proof (cpus_of_bitmap_last _ _ _ Hlast Hc). lia.
    + intros c Hc. apply elem_of_seqZ. lia.
    + intros ->. vm_compute in Hlast. injection Hlast as <-. reflexivity.
Qed.

End PerCpu.

Lemma walk_per_cpu_var_range_demo :
  exists ys,
    walk_per_cpu_var demo_profile demo_vm "runqueues" "rq" = Ok ys
    /\ ys = (fun i => (i, Object "rq"
                            (0x8000 + read_ulong demo_vm (0x200 + i * ptr_bytes demo_vm))))
            <$> seqZ 0 (2 + 1)
    /\ ys.*1 = seqZ 0 (2 + 1)
    /\ (forall c, c ∈ cpus_of_bitmap 5 -> c ∈ ys.*1)
    /\ (forall c, 0 <= c <= 2 -> c ∈ ys.*1)
    /\ (5 = 5 -> ys.*1 = [0; 1; 2]).
Proof.
  apply (walk_per_cpu_var_range demo_profile demo_vm "runqueues" "rq" 5 2 0x200 0x8000);
    vm_compute; reflexivity.
Defined.

(** With CPUs 0 and 2 online the walk yields three pairs, not two: the
    offline CPU 1 is walked as well. *)
Lemma walk_per_cpu_var_not_online_only :
  ~ spec_per_cpu_walk demo_profile demo_vm "runqueues" "rq".
Proof.
  intros Hspec. destruct (Hspec [0; 2] eq_refl) as (ys & Hys & Hidx).
  vm_compute in Hys. injection Hys as <-. vm_compute in Hidx. discriminate Hidx.
Qed.

(** * Path post-processing *)

Section PathFormat.

Lemma rev_not_nil {A : Type} (l : list A) : l <> [] -> rev l <> [].
Proof.
  intros Hl Hrev. apply Hl. rewrite <- (rev_involutive l), Hrev. reflexivity.
Qed.

(** On a non-empty [ret_path] the lines after the loop return a string,
    decided by the joined path alone. *)
Lemma format_path_joined (ret_path : list string) (ino : Z) :
  ret_path <> [] ->
  format_path ret_path ino
  = let ret_val := joined ret_path in
    if startswith ret_val "socket:" || startswith ret_val "pipe:" then
      if negb (has_char "]" ret_val)
      then PathStr (drop_last ret_val +:+ ":[" +:+ str_of_int ino +:+ "]")
      else PathStr (remove_char "/" ret_val)
    else if negb (String.eqb ret_val "inotify") then PathStr ("/" +:+ ret_val)
    else PathStr ret_val.
Proof.
  intros Hne. apply rev_not_nil in Hne.
  unfold format_path, joined. destruct (rev ret_path); [congruence | reflexivity].
Qed.

(** C5, as the code has it: for a non-empty reconstructed path, if the joined
    string begins with "socket:" or "pipe:" and holds no "]", its last
    character is dropped and ":[inode-number]" is appended; if it does hold a
    "]", its slashes are removed; the path "inotify" is returned as it is;
    every other path gets a leading "/". *)
Theorem format_path_cases (ret_path : list string) (ino : Z) :
  ret_path <> [] ->
  let ret_val := joined ret_path in
  let special := startswith ret_val "socket:" || startswith ret_val "pipe:" in
  (special = true -> has_char "]" ret_val = false ->
     format_path ret_path ino
     = PathStr (drop_last ret_val +:+ ":[" +:+ str_of_int ino +:+ "]"))
  /\ (special = true -> has_char "]" ret_val = true ->
        format_path ret_path ino = PathStr (remove_char "/" ret_val))
  /\ (ret_val = "inotify"%string ->
        format_path ret_path ino = PathStr "inotify")
  /\ (special = false -> ret_val <> "inotify"%string ->
        format_path ret_path ino = PathStr ("/" +:+ ret_val)).
Proof.
  intros Hne ret_val special.
  rewrite (format_path_joined _ ino Hne). fold ret_val. cbv zeta. fold special.
  split; [|split; [|split]].
  - intros -> ->. reflexivity.
  - intros -> ->. reflexivity.
  - intros Hino. subst special. rewrite Hino. reflexivity.
  - intros -> Hino. apply String.eqb_neq in Hino. rewrite Hino. reflexivity.
Qed.

End PathFormat.

Lemma format_path_cases_demo :
  format_path ["socket:"%string] 999 = PathStr "socket:[999]"
  /\ format_path ["[77]"; "pipe:"]%string 999 = PathStr "pipe:[77]"
  /\ format_path ["inotify"%string] 999 = PathStr "inotify"
  /\ format_path ["passwd"; "etc"]%string 999 = PathStr "/etc/passwd".
Proof.
  split; [|split; [|split]].
  - apply (proj1 (format_path_cases ["socket:"%string] 999 ltac:(discriminate)));
      vm_compute; reflexivity.
  - apply (proj1 (proj2 (format_path_cases ["[77]"; "pipe:"]%string 999
                           ltac:(discriminate))));
      vm_compute; reflexivity.
  - apply (proj1 (proj2 (proj2 (format_path_cases ["inotify"%string] 999
                                  ltac:(discriminate)))));
      vm_compute; reflexivity.
  - apply (proj2 (proj2 (proj2 (format_path_cases ["passwd"; "etc"]%string 999
                                  ltac:(discriminate)))));
      [vm_compute; reflexivity | vm_compute; discriminate].
Defined.

(** The path "socket:" of inode 999 becomes "socket:[999]": the code drops
    the last character before it appends, where the specification's wording
    (and its expected "socket::[999]") keeps it. *)
Lemma format_path_not_appended :
  ~ spec_path_format ["socket:"%string] 999.
Proof.
  intros Hspec. specialize (Hspec ltac:(discriminate)).
  vm_compute in Hspec. discriminate Hspec.
Qed.

(** * Known-address cache *)

Section KnownAddresses.

Implicit Types (known_addrs : gmap Z Z) (modules : list module_range).

Lemma classify_cached (p : Profile) modules known_addrs (addr known : Z) :
  known_addrs !! addr = Some known ->
  classify p modules known_addrs addr = (known, known_addrs).
Proof. intros Hhit. unfold classify. rewrite Hhit. reflexivity. Qed.

(** After a classification the address is in the dictionary with the value
    returned, and entries already there are kept. *)
Lemma classify_records (p : Profile) modules known_addrs (addr : Z) :
  (classify p modules known_addrs addr).2 !! addr
  = Some (classify p modules known_addrs addr).1.
Proof.
  unfold classify. destruct (known_addrs !! addr) eqn:Hhit; cbn; [exact Hhit|].
  apply lookup_insert_eq.
Qed.

Lemma classify_keeps (p : Profile) modules known_addrs (addr a known : Z) :
  known_addrs !! a = Some known ->
  (classify p modules known_addrs addr).2 !! a = Some known.
Proof.
  intros Ha. unfold classify. destruct (known_addrs !! addr) eqn:Hhit; cbn;
    [exact Ha|].
  rewrite lookup_insert_ne; [exact Ha | congruence].
Qed.

Lemma classify_all_keeps (p : Profile) modules (addrs : list Z) :
  forall known_addrs (a known : Z),
    known_addrs !! a = Some known ->
    classify_all p modules known_addrs addrs !! a = Some known.
Proof.
  induction addrs as [|x addrs IH]; intros known_addrs a known Ha; [exact Ha|].
  cbn [classify_all]. apply IH, classify_keeps, Ha.
Qed.

(** C9: once an address has been classified, classifying it again in the same
    invocation returns the same value and leaves the dictionary as it is, and
    the value comes from the dictionary: it is the same whatever text range
    and module list the second call is given.  This stays so after any run
    of classifications of other addresses in between. *)
Theorem classify_memoized (p : Profile) modules known_addrs (addr : Z) :
  let known := (classify p modules known_addrs addr).1 in
  let known_addrs' := (classify p modules known_addrs addr).2 in
  known_addrs' !! addr = Some known
  /\ classify p modules known_addrs' addr = (known, known_addrs')
  /\ (forall (p' : Profile) modules',
        classify p' modules' known_addrs' addr = (known, known_addrs'))
  /\ (forall (p' : Profile) modules' (between : list Z),
        let known_addrs'' := classify_all p' modules' known_addrs' between in
        classify p' modules' known_addrs'' addr = (known, known_addrs'')).
Proof.
  intros known known_addrs'.
  assert (Hrec : known_addrs' !! addr = Some known) by apply classify_records.
  split; [exact Hrec|]. split; [apply classify_cached, Hrec|].
  split.
  - intros p' modules'. apply classify_cached, Hrec.
  - intros p' modules' between known_addrs''.
    apply classify_cached, classify_all_keeps, Hrec.
Qed.

(** The dictionary only grows along [verify_ops]. *)
Lemma verify_ops_keeps (p : Profile) (vm : AddressSpace) (ops_type : string)
    (fops : Z) modules (op_members : list string) :
  forall known_addrs (a known : Z),
    known_addrs !! a = Some known ->
    (verify_ops p vm known_addrs ops_type fops op_members modules).2 !! a
    = Some known.
Proof.
  induction op_members as [|check rest IH]; intros known_addrs a known Ha;
    [exact Ha|].
  cbn [verify_ops].
  destruct (ptr_true vm _ && negb (_ =? 0)); [|apply IH, Ha].
  destruct (classify p modules known_addrs _) as [k c1] eqn:Hcl.
  specialize (IH c1 a known).
  destruct (verify_ops p vm c1 ops_type fops rest modules) as [ys c2].
  assert (Hc1 : c1 !! a = Some known).
  { change c1 with (k, c1).2. rewrite <- Hcl. apply classify_keeps, Ha. }
  destruct (k =? 0); cbn in *; auto.
Qed.

(** A second pass of [verify_ops] over the same operations table, in the same
    invocation, yields the same pairs from the dictionary alone: the module
    list it is given does not matter, and the dictionary is left unchanged. *)
Lemma verify_ops_again (p : Profile) (vm : AddressSpace) (ops_type : string)
    (fops : Z) modules modules' (op_members : list string) :
  forall known_addrs cache,
    (forall a known,
        (verify_ops p vm known_addrs ops_type fops op_members modules).2 !! a
        = Some known -> cache !! a = Some known) ->
    verify_ops p vm cache ops_type fops op_members modules'
    = ((verify_ops p vm known_addrs ops_type fops op_members modules).1, cache).
Proof.
  induction op_members as [|check rest IH]; intros known_addrs cache Hsub;
    [reflexivity|].
  cbn [verify_ops] in *.
  destruct (ptr_true vm _ && negb (_ =? 0)); [|apply IH, Hsub].
  set (addr := ptr_v vm (ops_member p ops_type fops check)) in *.
  pose proof (classify_records p modules known_addrs addr) as Hrec.
  destruct (classify p modules known_addrs addr) as [k c1]. cbn in Hrec.
  pose proof (verify_ops_keeps p vm ops_type fops modules rest c1 addr k Hrec)
    as Hkept.
  specialize (IH c1 cache).
  destruct (verify_ops p vm c1 ops_type fops rest modules) as [ys c2].
  cbn in Hkept, IH.
  assert (Hsub' : forall a known, c2 !! a = Some known -> cache !! a = Some known).
  { intros a known Ha. apply Hsub. destruct (k =? 0); exact Ha. }
  rewrite (classify_cached p modules' cache addr k) by (apply Hsub', Hkept).
  rewrite (IH Hsub'). destruct (k =? 0); reflexivity.
Qed.

End KnownAddresses.

(** * Termination of the path walk *)

Section PathWalk.

Context (p : Profile) (vm : AddressSpace) (rdentry rmnt : Z).

Lemma path_loop_eq (fuel : nat) (dentry vfsmnt : Z) (ret_path : list string) :
  path_loop (S fuel) p vm rdentry rmnt dentry vfsmnt ret_path
  = if walk_stops p vm rdentry rmnt (dentry, vfsmnt) then
      Some (if walk_cond p vm rdentry rmnt dentry vfsmnt
            then ret_path ++ [strip "/" (dereference_as_String vm
                                           (d_name_name p vm dentry)
                                           MAX_STRING_LENGTH)]
            else ret_path)
    else
      path_loop fuel p vm rdentry rmnt
        (walk_next p vm (dentry, vfsmnt)).1 (walk_next p vm (dentry, vfsmnt)).2
        (ret_path ++ [strip "/" (dereference_as_String vm
                                   (d_name_name p vm dentry) MAX_STRING_LENGTH)]).
Proof.
  cbn [path_loop]. unfold walk_stops, walk_next.
  destruct (walk_cond p vm rdentry rmnt dentry vfsmnt); cbn [negb orb]; [|reflexivity].
  destruct ((dentry =? mnt_root p vm vfsmnt) || (dentry =? d_parent p vm dentry));
    cbn [andb]; [|reflexivity].
  destruct (mnt_parent p vm vfsmnt =? vfsmnt); reflexivity.
Qed.

(** If the chain meets a stopping state after [n] iterations, [n + 1]
    iterations end the loop. *)
Lemma path_loop_stops (n : nat) :
  forall dentry vfsmnt ret_path,
    walk_stops p vm rdentry rmnt (walk_chain p vm n (dentry, vfsmnt)) = true ->
    exists ret,
      path_loop (S n) p vm rdentry rmnt dentry vfsmnt ret_path = Some ret.
Proof.
  induction n as [|n IH]; intros dentry vfsmnt ret_path Hstop;
    rewrite path_loop_eq.
  - cbn [walk_chain] in Hstop. rewrite Hstop. eauto.
  - destruct (walk_stops p vm rdentry rmnt (dentry, vfsmnt)); [eauto|].
    cbn [walk_chain] in Hstop.
    destruct (walk_next p vm (dentry, vfsmnt)) as [dentry' vfsmnt'].
    apply IH, Hstop.
Qed.

(** The loop ends only at a stopping state of the chain. *)
Lemma path_loop_returns (fuel : nat) :
  forall dentry vfsmnt ret_path ret,
    path_loop fuel p vm rdentry rmnt dentry vfsmnt ret_path = Some ret ->
    exists n, (n < fuel)%nat
      /\ walk_stops p vm rdentry rmnt (walk_chain p vm n (dentry, vfsmnt)) = true.
Proof.
  induction fuel as [|fuel IH]; intros dentry vfsmnt ret_path ret Hrun;
    [discriminate|].
  rewrite path_loop_eq in Hrun.
  destruct (walk_stops p vm rdentry rmnt (dentry, vfsmnt)) eqn:Hstop.
  - exists 0%nat. split; [lia | exact Hstop].
  - destruct (walk_next p vm (dentry, vfsmnt)) as [dentry' vfsmnt'] eqn:Hnext.
    apply IH in Hrun as (n & Hn & Hstop').
    exists (S n). split; [lia|]. cbn [walk_chain]. rewrite Hnext. exact Hstop'.
Qed.

Lemma path_loop_mono (fuel : nat) :
  forall dentry vfsmnt ret_path ret (fuel' : nat),
    path_loop fuel p vm rdentry rmnt dentry vfsmnt ret_path = Some ret ->
    (fuel <= fuel')%nat ->
    path_loop fuel' p vm rdentry rmnt dentry vfsmnt ret_path = Some ret.
Proof.
  induction fuel as [|fuel IH]; intros dentry vfsmnt ret_path ret fuel' Hrun Hle;
    [discriminate|].
  destruct fuel' as [|fuel']; [lia|].
  rewrite path_loop_eq in *.
  destruct (walk_stops p vm rdentry rmnt (dentry, vfsmnt)); [exact Hrun|].
  apply IH with (fuel' := fuel') in Hrun; [exact Hrun | lia].
Qed.

Lemma walk_chain_add (a b : nat) :
  forall st, walk_chain p vm (a + b) st = walk_chain p vm b (walk_chain p vm a st).
Proof. induction a as [|a IH]; intros st; [reflexivity | apply IH]. Qed.

(** Once the chain is back at a state it was at before, every later state is
    one of those met up to then. *)
Lemma walk_chain_cycle (n k : nat) (st : Z * Z) :
  (0 < k)%nat ->
  walk_chain p vm (n + k) st = walk_chain p vm n st ->
  forall m, exists r, (r < n + k)%nat /\ walk_chain p vm m st = walk_chain p vm r st.
Proof.
  intros Hk Hback m. induction m as [m IH] using lt_wf_ind.
  destruct (Nat.lt_ge_cases m (n + k)) as [Hlt|Hge]; [exists m; auto|].
  destruct (IH (m - k)%nat ltac:(lia)) as (r & Hr & Heq).
  exists r. split; [exact Hr|]. rewrite <- Heq.
  replace m with ((n + k) + (m - (n + k)))%nat at 1 by lia.
  replace (m - k)%nat with (n + (m - (n + k)))%nat by lia.
  rewrite !(walk_chain_add _ (m - (n + k))), Hback. reflexivity.
Qed.

(** On a chain that never meets a stopping state the loop does not end. *)
Lemma path_loop_never (dentry vfsmnt : Z) :
  (forall n, walk_stops p vm rdentry rmnt (walk_chain p vm n (dentry, vfsmnt))
             = false) ->
  forall fuel ret_path,
    path_loop fuel p vm rdentry rmnt dentry vfsmnt ret_path = None.
Proof.
  intros Hnever fuel ret_path.
  destruct (path_loop fuel p vm rdentry rmnt dentry vfsmnt ret_path) as [ret|]
    eqn:Hrun; [|reflexivity].
  apply path_loop_returns in Hrun as (n & _ & Hstop).
  rewrite Hnever in Hstop. discriminate Hstop.
Qed.

(** C2, as the code has it: [do_get_path] has no depth bound.  It returns
    if and only if the root dentry or the dentry is invalid (the early
    return), or the chain of dentries and mounts reaches, after some number
    [n] of iterations, a state that ends the loop: the root pair, a dentry
    whose name pointer is invalid, or a structural root (a dentry that is
    its mount's root or its own parent) in a mount that is its own parent;
    then [n + 1] iterations suffice and more change nothing.  On a chain
    that never reaches such a state it does not return, whatever the number
    of iterations; in particular on a chain that comes back to a state it
    was at before without having met a state that ends the loop. *)
Theorem do_get_path_terminates_when (dentry vfsmnt : Z) :
  let stops := fun n : nat =>
    walk_stops p vm rdentry rmnt (walk_chain p vm n (dentry, vfsmnt)) in
  let invalid :=
    is_valid_address vm rdentry = false \/ is_valid_address vm dentry = false in
  ((exists fuel ret, do_get_path fuel p vm rdentry rmnt dentry vfsmnt = Some ret)
   <-> invalid \/ exists n, stops n = true)
  /\ (forall n : nat, stops n = true ->
        exists ret,
          do_get_path (S n) p vm rdentry rmnt dentry vfsmnt = Some ret
          /\ forall fuel : nat, (n < fuel)%nat ->
               do_get_path fuel p vm rdentry rmnt dentry vfsmnt = Some ret)
  /\ (forall (fuel : nat) ret,
        do_get_path fuel p vm rdentry rmnt dentry vfsmnt = Some ret ->
        is_valid_address vm rdentry = false
        \/ is_valid_address vm dentry = false
        \/ exists k, (k < fuel)%nat /\ stops k = true)
  /\ (~ invalid -> (forall n, stops n = false) ->
      forall fuel, do_get_path fuel p vm rdentry rmnt dentry vfsmnt = None)
  /\ (~ invalid ->
      forall n k : nat, (0 < k)%nat ->
        walk_chain p vm (n + k) (dentry, vfsmnt) = walk_chain p vm n (dentry, vfsmnt) ->
        (forall m, (m < n + k)%nat -> stops m = false) ->
        forall fuel, do_get_path fuel p vm rdentry rmnt dentry vfsmnt = None).
Proof.
  intros stops invalid.
  assert (Hwhen : forall n : nat, stops n = true ->
            exists ret,
              do_get_path (S n) p vm rdentry rmnt dentry vfsmnt = Some ret
              /\ forall fuel : nat, (n < fuel)%nat ->
                   do_get_path fuel p vm rdentry rmnt dentry vfsmnt = Some ret).
  { intros n Hstop. unfold do_get_path.
    destruct (negb (is_valid_address vm rdentry) || negb (is_valid_address vm dentry));
      [eauto|].
    destruct (path_loop_stops n dentry vfsmnt [] Hstop) as [ret Hret].
    eexists. rewrite Hret. split; [reflexivity|].
    intros fuel Hfuel.
    rewrite (path_loop_mono _ _ _ _ _ fuel Hret) by lia. reflexivity. }
  assert (Honly : forall (fuel : nat) ret,
            do_get_path fuel p vm rdentry rmnt dentry vfsmnt = Some ret ->
            is_valid_address vm rdentry = false
            \/ is_valid_address vm dentry = false
            \/ exists k, (k < fuel)%nat /\ stops k = true).
  { intros fuel ret Hrun. unfold do_get_path in Hrun.
    destruct (is_valid_address vm rdentry); [|auto].
    destruct (is_valid_address vm dentry); [|auto].
    cbn [negb orb] in Hrun.
    destruct (path_loop fuel p vm rdentry rmnt dentry vfsmnt []) as [ret_path|]
      eqn:Hloop; [|discriminate].
    right; right. eapply path_loop_returns, Hloop. }
  assert (Hnever : ~ invalid -> (forall n, stops n = false) ->
            forall fuel, do_get_path fuel p vm rdentry rmnt dentry vfsmnt = None).
  { intros Hvalid Hno fuel.
    destruct (do_get_path fuel p vm rdentry rmnt dentry vfsmnt) as [ret|] eqn:Hrun;
      [|reflexivity].
    destruct (Honly fuel ret Hrun) as [Hr|[Hd|(k & _ & Hk)]].
    - destruct Hvalid. left. exact Hr.
    - destruct Hvalid. right. exact Hd.
    - rewrite Hno in Hk. discriminate Hk. }
  split; [|split; [exact Hwhen|split; [exact Honly|split; [exact Hnever|]]]].
  - split.
    + intros (fuel & ret & Hrun).
      destruct (Honly fuel ret Hrun) as [Hr|[Hd|(k & _ & Hk)]];
        [left; left; exact Hr | left; right; exact Hd | right; eauto].
    + intros [[Hr|Hd]|[n Hn]].
      * exists 0%nat, EmptyList. unfold do_get_path. rewrite Hr. reflexivity.
      * exists 0%nat, EmptyList. unfold do_get_path. rewrite Hd, orb_true_r.
        reflexivity.
      * destruct (Hwhen n Hn) as (ret & Hret & _). eauto.
  - intros Hvalid n k Hk Hback Hfirst. apply Hnever; [exact Hvalid|].
    intros m. destruct (walk_chain_cycle n k _ Hk Hback m) as (r & Hr & Heq).
    unfold stops. rewrite Heq. apply Hfirst, Hr.
Qed.

End PathWalk.

Lemma do_get_path_terminates_when_demo :
  (exists ret,
     do_get_path 2 demo_profile demo_vm 0x5000 0x3000 0x6000 0x3000 = Some ret
     /\ forall fuel : nat, (1 < fuel)%nat ->
          do_get_path fuel demo_profile demo_vm 0x5000 0x3000 0x6000 0x3000
          = Some ret)
  /\ do_get_path 1000 demo_profile demo_vm 0x5000 0x3000 0x1000 0x3000 = None.
Proof.
  split.
  - apply (proj1 (proj2 (do_get_path_terminates_when demo_profile demo_vm
                           0x5000 0x3000 0x6000 0x3000)) 1%nat).
    vm_compute. reflexivity.
  - apply (proj2 (proj2 (proj2 (proj2 (do_get_path_terminates_when
             demo_profile demo_vm 0x5000 0x3000 0x1000 0x3000))))
             ltac:(vm_compute; intros [H|H]; discriminate H) 0%nat 2%nat).
    + lia.
    + vm_compute. reflexivity.
    + intros m Hm. assert (Hcases : m = 0%nat \/ m = 1%nat) by lia.
      destruct Hcases as [-> | ->]; vm_compute; reflexivity.
Defined.

(** Two dentries that are each other's parent, below a mount whose root is
    elsewhere: every iteration moves from one to the other. *)
Lemma path_loop_demo_cycle (fuel : nat) :
  forall ret_path,
    path_loop fuel demo_profile demo_vm 0x5000 0x3000 0x1000 0x3000 ret_path = None
    /\ path_loop fuel demo_profile demo_vm 0x5000 0x3000 0x2000 0x3000 ret_path = None.
Proof.
  induction fuel as [|fuel IH]; intros ret_path; [split; reflexivity|].
  rewrite !path_loop_eq.
  change (walk_stops demo_profile demo_vm 0x5000 0x3000 (0x1000, 0x3000)) with false.
  change (walk_stops demo_profile demo_vm 0x5000 0x3000 (0x2000, 0x3000)) with false.
  change (walk_next demo_profile demo_vm (0x1000, 0x3000)) with (0x2000, 0x3000).
  change (walk_next demo_profile demo_vm (0x2000, 0x3000)) with (0x1000, 0x3000).
  cbn [fst snd]. split; apply IH.
Qed.

(** On that cycle [do_get_path] returns for no number of iterations. *)
Lemma do_get_path_cycle_diverges :
  ~ spec_path_walk_terminates demo_profile demo_vm 0x5000 0x3000 0x1000 0x3000.
Proof.
  intros (fuel & ret & Hrun). unfold do_get_path in Hrun.
  change (negb (is_valid_address demo_vm 0x5000)
          || negb (is_valid_address demo_vm 0x1000)) with false in Hrun.
  rewrite (proj1 (path_loop_demo_cycle fuel [])) in Hrun. discriminate Hrun.
Qed.

(** [get_partial_path] has no bound either. *)
Lemma get_partial_path_cycle_diverges (fuel : nat) :
  get_partial_path fuel demo_profile demo_vm 0x1000 = None.
Proof.
  unfold get_partial_path.
  assert (Hloop : forall path,
             partial_loop fuel demo_profile demo_vm 0x1000 path = None
             /\ partial_loop fuel demo_profile demo_vm 0x2000 path = None).
  { induction fuel as [|fuel IH]; intros path; [split; reflexivity|].
    cbn [partial_loop].
    change (d_parent demo_profile demo_vm 0x1000) with 0x2000.
    change (d_parent demo_profile demo_vm 0x2000) with 0x1000.
    change (is_valid_address demo_vm 0x1000 && negb (0x1000 =? 0x2000)) with true.
    change (is_valid_address demo_vm 0x2000 && negb (0x2000 =? 0x1000)) with true.
    cbv iota. split; apply IH. }
  rewrite (proj1 (Hloop [])). reflexivity.
Qed.

(** * File contents *)

Section FileContents.

Context (p : Profile) (vm : AddressSpace) (phys_as : PhysicalSpace) (inode : Z).

(** The contract of the physical read: what it returns has the length asked
    for. *)
Hypothesis phys_read_length :
  forall off d, phys_read phys_as off 4096 = Some d -> Z.of_nat (length d) = 4096.

Lemma zero_page_length : Z.of_nat (length zero_page) = 4096.
Proof. unfold zero_page. rewrite length_replicate. lia. Qed.

Lemma get_page_contents_absent (idx : Z) :
  page_absent p vm inode idx ->
  get_page_contents p vm phys_as inode idx = Ok (Some zero_page).
Proof.
  intros (page & Hfind & Hfalse). unfold get_page_contents. rewrite Hfind.
  cbn [mbind result_bind]. destruct page as [ptr|]; [|reflexivity].
  cbn [page_true] in Hfalse. rewrite Hfalse. reflexivity.
Qed.

Lemma get_page_contents_length (idx : Z) (d : bytes) :
  get_page_contents p vm phys_as inode idx = Ok (Some d) ->
  Z.of_nat (length d) = 4096.
Proof.
  unfold get_page_contents.
  destruct (find_get_page p vm inode idx) as [[ptr|]|e]; cbn [mbind result_bind];
    [|intros [= <-]; apply zero_page_length|discriminate].
  destruct (ptr_true vm ptr); [|intros [= <-]; apply zero_page_length].
  destruct (phys_addr_of_page p vm (ptr_v vm ptr)) as [off|e];
    cbn [mbind result_bind]; [|discriminate].
  intros [= Hread]. apply (phys_read_length _ _ Hread).
Qed.

Lemma page_data_eq (idx : Z) (d : bytes) :
  get_page_contents p vm phys_as inode idx = Ok (Some d) ->
  page_data p vm phys_as inode idx = d.
Proof. intros H. unfold page_data. rewrite H. reflexivity. Qed.

(** When no fetch fails the loop appends the pages in order. *)
Lemma read_pages_ok (idxs : list Z) :
  forall data,
    (forall idx, idx ∈ idxs ->
       exists d, get_page_contents p vm phys_as inode idx = Ok (Some d)) ->
    read_pages p vm phys_as inode data idxs
    = Ok (data ++ mjoin (page_data p vm phys_as inode <$> idxs)).
Proof.
  induction idxs as [|idx idxs IH]; intros data Hok.
  - cbn. rewrite app_nil_r. reflexivity.
  - destruct (Hok idx) as [d Hd]; [left|].
    cbn [read_pages]. rewrite Hd. cbn [mbind result_bind str_add].
    rewrite IH by (intros i Hi; apply Hok; right; exact Hi).
    csimpl. rewrite (page_data_eq _ _ Hd), app_assoc. reflexivity.
Qed.

Lemma pages_length (idxs : list Z) :
  (forall idx, idx ∈ idxs ->
     exists d, get_page_contents p vm phys_as inode idx = Ok (Some d)) ->
  Forall (fun pg => Z.of_nat (length pg) = 4096)
         (page_data p vm phys_as inode <$> idxs).
Proof.
  intros Hok. apply Forall_fmap, Forall_forall. intros idx Hidx.
  destruct (Hok idx Hidx) as [d Hd]. cbn.
  rewrite (page_data_eq _ _ Hd). apply (get_page_contents_length _ _ Hd).
Qed.

Lemma mjoin_pages_length (pages : list bytes) :
  Forall (fun pg => Z.of_nat (length pg) = 4096) pages ->
  Z.of_nat (length (mjoin pages)) = Z.of_nat (length pages) * 4096.
Proof.
  induction 1 as [|pg pages Hpg _ IH]; [reflexivity|].
  csimpl. rewrite length_app. lia.
Qed.

(** Byte [k] of the concatenation is byte [k - 4096 j] of page [j]: no page
    is left out and none is moved. *)
Lemma mjoin_pages_lookup (pages : list bytes) :
  Forall (fun pg => Z.of_nat (length pg) = 4096) pages ->
  forall (j k : nat) (pg : bytes),
    pages !! j = Some pg ->
    Z.of_nat j * 4096 <= Z.of_nat k < Z.of_nat j * 4096 + 4096 ->
    mjoin pages !! k = pg !! Z.to_nat (Z.of_nat k - Z.of_nat j * 4096).
Proof.
  induction 1 as [|pg0 pages Hpg0 _ IH]; intros j k pg Hj Hk; [discriminate|].
  csimpl. destruct j as [|j].
  - injection Hj as ->. rewrite lookup_app_l by lia. f_equal. lia.
  - rewrite lookup_app_r by lia. cbn in Hj.
    rewrite (IH j (k - length pg0)%nat pg Hj) by lia. f_equal. lia.
Qed.

(** The number of pages read and the truncation, in one equation. *)
Lemma get_file_contents_eq :
  let file_size := i_size p vm inode in
  let idxs := if file_size mod 4096 =? 0 then file_size / 4096
              else file_size / 4096 + 1 in
  get_file_contents p vm phys_as inode
  = data ← read_pages p vm phys_as inode [] (seqZ 0 idxs);
    Ok (if file_size mod 4096 =? 0 then data
        else slice_to data (- (4096 - file_size mod 4096))).
Proof.
  intros file_size idxs. subst idxs. unfold get_file_contents. fold file_size.
  destruct (Z.eqb_spec (file_size mod 4096) 0) as [Hz|Hnz]; cbn [negb].
  - rewrite Hz. reflexivity.
  - assert (Hextra : (4096 - file_size mod 4096 =? 0) = false).
    { apply Z.eqb_neq. pose proof (Z.mod_pos_bound file_size 4096). lia. }
    rewrite Hextra. cbn [negb].
    replace ((4096 - file_size mod 4096) * -1)
      with (- (4096 - file_size mod 4096)) by lia.
    reflexivity.
Qed.

(** C1, as the code has it: for an inode of declared size [S >= 0], when no
    page fetch fails and the physical read returns the 4096 bytes asked for,
    [get_file_contents] returns exactly [S] bytes: the first [S] bytes of the
    concatenation of [ceil(S / 4096)] pages of 4096 bytes each, in which
    every page absent from the page cache is 4096 zero bytes; so every byte
    of the result that falls in an absent page is zero and sits at its own
    offset. *)
Theorem get_file_contents_length :
  let file_size := i_size p vm inode in
  0 <= file_size ->
  (forall idx, 0 <= idx -> idx * 4096 < file_size ->
     exists d, get_page_contents p vm phys_as inode idx = Ok (Some d)) ->
  exists (pages : list bytes) (data : bytes),
    get_file_contents p vm phys_as inode = Ok data
    /\ Z.of_nat (length data) = file_size
    /\ (Z.of_nat (length pages) - 1) * 4096 < file_size
       <= Z.of_nat (length pages) * 4096
    /\ Forall (fun pg => Z.of_nat (length pg) = 4096) pages
    /\ data = take (Z.to_nat file_size) (mjoin pages)
    /\ (forall j : nat, (j < length pages)%nat ->
          page_absent p vm inode (Z.of_nat j) -> pages !! j = Some zero_page)
    /\ (forall k : nat, Z.of_nat k < file_size ->
          page_absent p vm inode (Z.of_nat k / 4096) ->
          data !! k = Some Byte.x00).
Proof.
  intros file_size Hsize Hfetch.
  set (idxs := if file_size mod 4096 =? 0 then file_size / 4096
               else file_size / 4096 + 1).
  assert (Hidxs : (idxs - 1) * 4096 < file_size <= idxs * 4096 /\ 0 <= idxs).
  { subst idxs. destruct (Z.eqb_spec (file_size mod 4096) 0);
      Z.to_euclidean_division_equations; lia. }
  assert (Hok : forall idx, idx ∈ seqZ 0 idxs ->
                  exists d, get_page_contents p vm phys_as inode idx = Ok (Some d)).
  { intros idx Hidx. apply elem_of_seqZ in Hidx. apply Hfetch; lia. }
  set (pages := page_data p vm phys_as inode <$> seqZ 0 idxs).
  assert (Hlen : Z.of_nat (length pages) = idxs).
  { subst pages. rewrite length_fmap, length_seqZ. lia. }
  pose proof (pages_length _ Hok) as Hpages. fold pages in Hpages.
  pose proof (mjoin_pages_length _ Hpages) as Hjoin.
  assert (Hpage : forall j : nat, (j < length pages)%nat ->
            pages !! j = Some (page_data p vm phys_as inode (Z.of_nat j))).
  { intros j Hj. subst pages. rewrite list_lookup_fmap, lookup_seqZ_lt by lia.
    reflexivity. }
  assert (Hzero : forall j : nat, (j < length pages)%nat ->
            page_absent p vm inode (Z.of_nat j) -> pages !! j = Some zero_page).
  { intros j Hj Habs. rewrite (Hpage j Hj).
    rewrite (page_data_eq _ _ (get_page_contents_absent _ Habs)). reflexivity. }
  assert (Hdata : get_file_contents p vm phys_as inode
                  = Ok (take (Z.to_nat file_size) (mjoin pages))).
  { rewrite get_file_contents_eq. fold file_size. fold idxs.
    rewrite (read_pages_ok _ [] Hok). fold pages. cbn [app mbind result_bind].
    f_equal. destruct (Z.eqb_spec (file_size mod 4096) 0) as [Hz|Hnz].
    - rewrite take_ge; [reflexivity|].
      subst idxs. cbv iota in *.
      Z.to_euclidean_division_equations; lia.
    - unfold slice_to.
      destruct (Z.ltb_spec (- (4096 - file_size mod 4096)) 0) as [_|Hge].
      + f_equal. subst idxs. cbv iota in *.
        Z.to_euclidean_division_equations; lia.
      + pose proof (Z.mod_pos_bound file_size 4096). lia. }
  exists pages, (take (Z.to_nat file_size) (mjoin pages)).
  split; [exact Hdata|].
  split; [rewrite length_take; lia|].
  split; [lia|].
  split; [exact Hpages|].
  split; [reflexivity|].
  split; [exact Hzero|].
  intros k Hk Habs.
  rewrite lookup_take_lt by lia.
  set (j := Z.to_nat (Z.of_nat k / 4096)).
  assert (Hj : Z.of_nat j = Z.of_nat k / 4096).
  { subst j. rewrite Z2Nat.id; [reflexivity|]. apply Z.div_pos; lia. }
  assert (Hjk : Z.of_nat j * 4096 <= Z.of_nat k < Z.of_nat j * 4096 + 4096).
  { rewrite Hj. Z.to_euclidean_division_equations; lia. }
  rewrite <- Hj in Habs.
  assert (Hjlen : (j < length pages)%nat) by lia.
  rewrite (mjoin_pages_lookup _ Hpages j k zero_page (Hzero j Hjlen Habs) Hjk).
  unfold zero_page. apply lookup_replicate_2. lia.
Qed.

(** A negative declared size reads no page and yields the empty string. *)
Lemma get_file_contents_negative :
  i_size p vm inode < 0 -> get_file_contents p vm phys_as inode = Ok [].
Proof.
  intros Hneg. rewrite get_file_contents_eq.
  assert (Hnil : seqZ 0 (if i_size p vm inode mod 4096 =? 0
                         then i_size p vm inode / 4096
                         else i_size p vm inode / 4096 + 1) = []).
  { unfold seqZ. replace (Z.to_nat _) with 0%nat; [reflexivity|].
    destruct (Z.eqb_spec (i_size p vm inode mod 4096) 0);
      Z.to_euclidean_division_equations; lia. }
  rewrite Hnil. cbn [read_pages mbind result_bind].
  destruct (_ =? 0); [reflexivity|]. unfold slice_to.
  destruct (_ <? 0); cbn [length]; rewrite take_nil; reflexivity.
Qed.

End FileContents.

(** The example inode: 5000 bytes, page 0 resident, page 1 not. *)
Example demo_file_contents :
  get_file_contents demo_profile demo_vm demo_phys 0x7000
  = Ok (replicate 4096 Byte.x01 ++ replicate 904 Byte.x00).
Proof. vm_compute. reflexivity. Qed.

Lemma get_file_contents_length_demo :
  exists (pages : list bytes) (data : bytes),
    get_file_contents demo_profile demo_vm demo_phys 0x7000 = Ok data
    /\ Z.of_nat (length data) = 5000
    /\ (Z.of_nat (length pages) - 1) * 4096 < 5000 <= Z.of_nat (length pages) * 4096
    /\ Forall (fun pg => Z.of_nat (length pg) = 4096) pages
    /\ data = take (Z.to_nat 5000) (mjoin pages)
    /\ (forall j : nat, (j < length pages)%nat ->
          page_absent demo_profile demo_vm 0x7000 (Z.of_nat j) ->
          pages !! j = Some zero_page)
    /\ (forall k : nat, Z.of_nat k < 5000 ->
          page_absent demo_profile demo_vm 0x7000 (Z.of_nat k / 4096) ->
          data !! k = Some Byte.x00).
Proof.
  apply (get_file_contents_length demo_profile demo_vm demo_phys 0x7000).
  - intros off d [= <-]. vm_compute. reflexivity.
  - vm_compute. discriminate.
  - intros idx Hlo Hhi. change (i_size demo_profile demo_vm 0x7000) with 5000 in Hhi.
    assert (Hidx : idx = 0 \/ idx = 1) by lia.
    destruct Hidx as [-> | ->]; eexists; vm_compute; reflexivity.
Defined.

(** The inode 0x7400 of the second image declares 10 bytes, but the node of
    its page tree records height 0: the lookup of page 0 raises
    [ValueError], and no byte sequence is returned. *)
Lemma get_file_contents_fetch_raises :
  ~ spec_file_contents_length demo_profile extra_vm demo_phys 0x7400.
Proof.
  intros (data & Hrun & _). vm_compute in Hrun. discriminate Hrun.
Qed.

(** * Further properties: online CPUs *)

Section OnlineCpus.

Context (p : Profile) (vm : AddressSpace).

(** [bmap & (1 << i)] is non-zero exactly when bit [i] of [bmap] is set. *)
Lemma bit_set_testbit (bmap i : Z) : 0 <= i -> bit_set bmap i = Z.testbit bmap i.
Proof.
  intros Hi. unfold bit_set. rewrite Z.shiftl_1_l.
  destruct (Z.testbit bmap i) eqn:Hbit.
  - apply negb_true_iff, Z.eqb_neq. intros Hzero.
    assert (Hb : Z.testbit (Z.land bmap (2 ^ i)) i = true).
    { rewrite Z.land_spec, Hbit, Z.pow2_bits_true by lia. reflexivity. }
    rewrite Hzero, Z.bits_0 in Hb. discriminate Hb.
  - apply negb_false_iff, Z.eqb_eq, Z.bits_inj'. intros n Hn.
    rewrite Z.land_spec, Z.bits_0, Z.pow2_bits_eqb by lia.
    destruct (Z.eqb_spec i n) as [<-|_]; [rewrite Hbit; reflexivity|].
    apply andb_false_r.
Qed.

Lemma StronglySorted_filter_lt (P : Z -> Prop) `{!forall x, Decision (P x)}
    (l : list Z) :
  StronglySorted Z.lt l -> StronglySorted Z.lt (filter P l).
Proof.
  induction 1 as [|x l _ IH Hx]; [constructor|].
  rewrite filter_cons. case_decide; [|exact IH].
  constructor; [exact IH|].
  apply Forall_forall. intros y Hy. apply list_elem_of_filter in Hy as [_ Hy].
  rewrite Forall_forall in Hx. exact (Hx y Hy).
Qed.

Lemma filter_ext_elem {A : Type} (P Q : A -> Prop)
    `{!forall x, Decision (P x)} `{!forall x, Decision (Q x)} (l : list A) :
  (forall x, x ∈ l -> P x <-> Q x) -> filter P l = filter Q l.
Proof.
  induction l as [|x l IH]; intros Hext; [reflexivity|].
  rewrite !filter_cons.
  rewrite IH by (intros y Hy; apply Hext; right; exact Hy).
  pose proof (Hext x ltac:(left)) as Hx.
  repeat case_decide; tauto.
Qed.

Lemma cpus_of_bitmap_sorted (bmap : Z) : StronglySorted Z.lt (cpus_of_bitmap bmap).
Proof.
  apply StronglySorted_filter_lt.
  change (seqZ 0 8) with [0; 1; 2; 3; 4; 5; 6; 7].
  repeat (constructor; [|repeat (constructor; [lia|]); constructor]). constructor.
Qed.

Lemma cpus_of_bitmap_low_byte (bmap : Z) :
  cpus_of_bitmap bmap = cpus_of_bitmap (bmap mod 256).
Proof.
  unfold cpus_of_bitmap. apply filter_ext_elem. intros c Hc.
  apply elem_of_seqZ in Hc. rewrite !bit_set_testbit by lia.
  change 256 with (2 ^ 8). rewrite Z.mod_pow2_bits_low by lia. tauto.
Qed.

(** X1: [online_cpus] lists exactly the indices 0..7 whose bit is set in
    the bitmap word, each once and in ascending order; bits 8 and above are
    not looked at. *)
Theorem online_cpus_bits (bmap : Z) :
  cpu_bitmap p vm = Ok bmap ->
  exists cpus,
    online_cpus p vm = Ok cpus
    /\ (forall c, c ∈ cpus <-> 0 <= c < 8 /\ Z.testbit bmap c = true)
    /\ StronglySorted Z.lt cpus
    /\ cpus = cpus_of_bitmap (bmap mod 256).
Proof.
  intros Hbmap. exists (cpus_of_bitmap bmap).
  split; [unfold online_cpus; rewrite Hbmap; reflexivity|].
  split.
  { intros c. rewrite elem_of_cpus_of_bitmap. split.
    - intros [Hc Hb]. rewrite bit_set_testbit in Hb by lia. auto.
    - intros [Hc Hb]. rewrite bit_set_testbit by lia. auto. }
  split; [apply cpus_of_bitmap_sorted | apply cpus_of_bitmap_low_byte].
Qed.

Lemma cpus_of_bitmap_nil (bmap : Z) :
  cpus_of_bitmap bmap = [] <-> bmap mod 256 = 0.
Proof.
  rewrite (cpus_of_bitmap_low_byte bmap). split.
  - intros Hnil. apply Z.bits_inj'. intros n Hn. rewrite Z.bits_0.
    destruct (Z.lt_ge_cases n 8) as [Hn8|Hn8].
    + destruct (Z.testbit (bmap mod 256) n) eqn:Hb; [|reflexivity].
      exfalso.
      assert (Hin : n ∈ cpus_of_bitmap (bmap mod 256)).
      { apply elem_of_cpus_of_bitmap. rewrite bit_set_testbit by lia. auto. }
      rewrite Hnil in Hin. apply elem_of_nil in Hin. exact Hin.
    + change 256 with (2 ^ 8). apply Z.mod_pow2_bits_high. lia.
  - intros ->. reflexivity.
Qed.

(** X2: [walk_per_cpu_var] raises [AttributeError] when neither bitmap symbol
    resolves, and [IndexError] (from [cpus[-1]]) when the bitmap is read but
    none of the CPUs 0..7 is online in it; with any of them online,
    [cpus[-1]] is the highest online CPU. *)
Theorem walk_per_cpu_var_errors (per_var var_type : string) :
  (if_sym (get_profile_symbol p "cpu_online_bits") = None ->
   if_sym (get_profile_symbol p "cpu_present_map") = None ->
   walk_per_cpu_var p vm per_var var_type = Raise AttributeError)
  /\ (forall bmap, cpu_bitmap p vm = Ok bmap -> bmap mod 256 = 0 ->
        walk_per_cpu_var p vm per_var var_type = Raise IndexError)
  /\ (forall bmap, cpu_bitmap p vm = Ok bmap -> bmap mod 256 <> 0 ->
        exists last_cpu,
          last_item (cpus_of_bitmap bmap) = Ok last_cpu
          /\ Z.testbit bmap last_cpu = true
          /\ forall c, 0 <= c < 8 -> Z.testbit bmap c = true -> c <= last_cpu).
Proof.
  split; [|split].
  - intros Hbits Hmap. unfold walk_per_cpu_var, online_cpus, cpu_bitmap.
    rewrite Hbits, Hmap. reflexivity.
  - intros bmap Hbmap Hzero. unfold walk_per_cpu_var, online_cpus.
    rewrite Hbmap. cbn [mbind result_bind].
    rewrite (proj2 (cpus_of_bitmap_nil bmap) Hzero). reflexivity.
  - intros bmap Hbmap Hnz. unfold last_item.
    destruct (last (cpus_of_bitmap bmap)) as [c|] eqn:Hlast.
    + exists c. split; [reflexivity|].
      assert (Hin : c ∈ cpus_of_bitmap bmap).
      { apply last_Some in Hlast as [l' ->]. apply elem_of_app. right. left. }
      apply elem_of_cpus_of_bitmap in Hin as [Hc Hb].
      rewrite bit_set_testbit in Hb by lia. split; [exact Hb|].
      intros c' Hc' Hb'.
      apply (cpus_of_bitmap_last _ _ c' Hlast), elem_of_cpus_of_bitmap.
      rewrite bit_set_testbit by lia. auto.
    + apply last_None, cpus_of_bitmap_nil in Hlast. contradiction.
Qed.

End OnlineCpus.

Lemma online_cpus_bits_demo :
  exists cpus,
    online_cpus demo_profile demo_vm = Ok cpus
    /\ (forall c, c ∈ cpus <-> 0 <= c < 8 /\ Z.testbit 5 c = true)
    /\ StronglySorted Z.lt cpus
    /\ cpus = cpus_of_bitmap (5 mod 256).
Proof.
  apply (online_cpus_bits demo_profile demo_vm 5). vm_compute. reflexivity.
Defined.

Lemma walk_per_cpu_var_errors_demo :
  walk_per_cpu_var demo_sparse_profile demo_vm "runqueues" "rq" = Raise AttributeError
  /\ walk_per_cpu_var demo_profile extra_vm "runqueues" "rq" = Raise IndexError.
Proof.
  split.
  - apply (proj1 (walk_per_cpu_var_errors demo_sparse_profile demo_vm
                    "runqueues" "rq")); vm_compute; reflexivity.
  - apply (proj1 (proj2 (walk_per_cpu_var_errors demo_profile extra_vm
                           "runqueues" "rq")) 0); vm_compute; reflexivity.
Defined.

(** * Further properties: boot time *)

Section BootTimeMore.

Lemma carry_loop_mono (fuel : nat) :
  forall secs nsecs res (fuel' : nat),
    carry_loop fuel secs nsecs = Some res -> (fuel <= fuel')%nat ->
    carry_loop fuel' secs nsecs = Some res.
Proof.
  induction fuel as [|fuel IH]; intros secs nsecs res fuel' Hrun Hle; [discriminate|].
  destruct fuel' as [|fuel']; [lia|]. cbn [carry_loop] in *.
  destruct (nsecs_per <=? nsecs); [|exact Hrun].
  apply IH with (fuel' := fuel') in Hrun; [exact Hrun | lia].
Qed.

Lemma borrow_loop_mono (fuel : nat) :
  forall secs nsecs res (fuel' : nat),
    borrow_loop fuel secs nsecs = Some res -> (fuel <= fuel')%nat ->
    borrow_loop fuel' secs nsecs = Some res.
Proof.
  induction fuel as [|fuel IH]; intros secs nsecs res fuel' Hrun Hle; [discriminate|].
  destruct fuel' as [|fuel']; [lia|]. cbn [borrow_loop] in *.
  destruct (nsecs <? 0); [|exact Hrun].
  apply IH with (fuel' := fuel') in Hrun; [exact Hrun | lia].
Qed.

(** Whatever the number of iterations allowed, a value returned is the
    normalised one. *)
Lemma boot_time_of_returns (fuel : nat) (wall_sec wall_nsec sleep_sec sleep_nsec b : Z) :
  boot_time_of fuel wall_sec wall_nsec sleep_sec sleep_nsec = Some b ->
  b = norm_secs wall_sec wall_nsec sleep_sec sleep_nsec.
Proof.
  intros Hrun.
  set (big := (fuel + Z.to_nat (Z.abs (wall_nsec + sleep_nsec) / nsecs_per + 2))%nat).
  assert (Hbig : boot_time_of big wall_sec wall_nsec sleep_sec sleep_nsec = Some b).
  { unfold boot_time_of in *.
    destruct (carry_loop fuel _ _) as [[s1 n1]|] eqn:Hc; [|discriminate].
    cbn [mbind option_bind] in Hrun.
    destruct (borrow_loop fuel s1 n1) as [[s2 n2]|] eqn:Hb; [|discriminate].
    rewrite (carry_loop_mono _ _ _ _ big Hc) by (subst big; lia).
    cbn [mbind option_bind].
    rewrite (borrow_loop_mono _ _ _ _ big Hb) by (subst big; lia).
    exact Hrun. }
  rewrite boot_time_of_spec in Hbig; [congruence|].
  subst big. unfold nsecs_per. Z.to_euclidean_division_equations; lia.
Qed.

(** X3: whenever [get_boot_time] returns, its value is the floor, in whole
    seconds, of the negated sum of the wall-to-monotonic and sleep times:
    the largest [b] with [b * 10^9 <= -(total nanoseconds)]. *)
Theorem get_boot_time_floor (fuel : nat) (p : Profile) (vm : AddressSpace)
    (wall timeo b : Z) :
  get_time_vars p vm = Ok (wall, timeo) ->
  get_boot_time fuel p vm = Some (Ok b) ->
  let total_ns := (tv_sec p vm wall + tv_sec p vm timeo) * nsecs_per
                  + (tv_nsec p vm wall + tv_nsec p vm timeo) in
  b * nsecs_per <= - total_ns < (b + 1) * nsecs_per.
Proof.
  intros Hv Hrun total_ns. unfold get_boot_time in Hrun. rewrite Hv in Hrun.
  destruct (boot_time_of fuel _ _ _ _) as [b'|] eqn:Hb; [|discriminate].
  injection Hrun as ->. apply boot_time_of_returns in Hb. subst b total_ns.
  unfold norm_secs, nsecs_per. Z.to_euclidean_division_equations; lia.
Qed.

End BootTimeMore.

Lemma get_boot_time_floor_demo :
  let total_ns := (tv_sec demo_profile demo_vm 0x400 + tv_sec demo_profile demo_vm 0x410)
                  * nsecs_per
                  + (tv_nsec demo_profile demo_vm 0x400
                     + tv_nsec demo_profile demo_vm 0x410) in
  100 * nsecs_per <= - total_ns < (100 + 1) * nsecs_per.
Proof.
  apply (get_boot_time_floor 2 demo_profile demo_vm 0x400 0x410 100);
    vm_compute; reflexivity.
Defined.

(** * Further properties: physical address of a page *)

Section PhysAddrMore.

Context (p : Profile) (vm : AddressSpace).

(** X4: with the flat model resolved and a non-zero page-structure size, the
    [i]-th element of the page array maps to physical offset [4096 * i], for
    every integer [i]; and whatever the model, an offset returned is a
    multiple of 4096. *)
Theorem phys_addr_of_page_index (a : Z) :
  if_sym (get_profile_symbol p "mem_map") = Some a ->
  get_obj_size p "page" <> 0 ->
  (forall i, phys_addr_of_page p vm (read_ptr vm a + i * get_obj_size p "page")
             = Ok (i * 4096))
  /\ (forall page r, phys_addr_of_page p vm page = Ok r -> r mod 4096 = 0).
Proof.
  intros Hflat Hsize. split.
  - intros i. unfold phys_addr_of_page, py_div. rewrite Hflat.
    cbn [mbind result_bind]. rewrite (proj2 (Z.eqb_neq _ _) Hsize).
    cbn [mbind result_bind].
    replace (read_ptr vm a + i * get_obj_size p "page" - read_ptr vm a)
      with (i * get_obj_size p "page") by lia.
    rewrite Z.div_mul by exact Hsize. rewrite shiftl_12. reflexivity.
  - intros page r. unfold phys_addr_of_page, py_div. rewrite Hflat.
    cbn [mbind result_bind]. rewrite (proj2 (Z.eqb_neq _ _) Hsize).
    cbn [mbind result_bind].
    intros [= <-]. rewrite shiftl_12. apply Z.mod_mul. lia.
Qed.

(** X5: [phys_addr_of_page] fails with [SystemExit] (from [debug.error])
    when neither memory-model symbol resolves, and with [ZeroDivisionError]
    when one does but the profile gives the page structure size 0. *)
Theorem phys_addr_of_page_errors (page : Z) :
  (if_sym (get_profile_symbol p "mem_map") = None ->
   if_sym (get_profile_symbol p "mem_section") = None ->
   phys_addr_of_page p vm page = Raise SystemExit)
  /\ ((if_sym (get_profile_symbol p "mem_map") <> None
       \/ if_sym (get_profile_symbol p "mem_section") <> None) ->
      get_obj_size p "page" = 0 ->
      phys_addr_of_page p vm page = Raise ZeroDivisionError).
Proof.
  split.
  - apply phys_addr_of_page_no_model.
  - intros Hmodel Hsize. unfold phys_addr_of_page, py_div. rewrite Hsize.
    destruct (if_sym (get_profile_symbol p "mem_map")); [reflexivity|].
    destruct (if_sym (get_profile_symbol p "mem_section")); [reflexivity|].
    destruct Hmodel; congruence.
Qed.

End PhysAddrMore.

(** A profile without memory-model symbols, and one without the size of the
    page structure. *)
Lemma phys_addr_of_page_errors_demo :
  phys_addr_of_page
    {| get_symbol := fun _ => None; get_obj_size := fun _ => 32;
       get_obj_offset := fun _ _ => 0 |} demo_vm 0x100040 = Raise SystemExit
  /\ phys_addr_of_page
       {| get_symbol := sym_table demo_symbols; get_obj_size := fun _ => 0;
          get_obj_offset := fun _ _ => 0 |} demo_vm 0x100040
     = Raise ZeroDivisionError.
Proof.
  split.
  - apply (proj1 (phys_addr_of_page_errors _ demo_vm 0x100040));
      vm_compute; reflexivity.
  - apply (proj2 (phys_addr_of_page_errors _ demo_vm 0x100040)).
    + left. vm_compute. discriminate.
    + reflexivity.
Defined.

Lemma phys_addr_of_page_index_demo :
  (forall i, phys_addr_of_page demo_profile demo_vm
               (read_ptr demo_vm 0x300 + i * get_obj_size demo_profile "page")
             = Ok (i * 4096))
  /\ (forall page r, phys_addr_of_page demo_profile demo_vm page = Ok r ->
                     r mod 4096 = 0).
Proof.
  apply (phys_addr_of_page_index demo_profile demo_vm 0x300).
  - vm_compute. reflexivity.
  - vm_compute. discriminate.
Defined.

(** * Further properties: radix tree, pages and files *)

Section PageCacheMore.

Context (p : Profile) (vm : AddressSpace).

(** The value of an indirect lookup in a node of positive height. *)
Lemma radix_tree_lookup_indirect (root index : Z) :
  let rnode := ptr_v vm (root_rnode p root) in
  let node := radix_tree_indirect_to_ptr rnode in
  radix_tree_is_indirect_ptr rnode <> 0 ->
  1 <= node_height p vm node ->
  radix_tree_lookup_slot p vm root index
  = Ok (Some (node_slot p vm node (Z.land index RADIX_TREE_MAP_MASK))).
Proof.
  intros rnode node Hind Hh.
  unfold radix_tree_lookup_slot, radix_tree_lookup_reads. fold rnode.
  apply Z.eqb_neq in Hind. rewrite Hind. fold node.
  destruct (Z.to_nat (node_height p vm node)) as [|levels] eqn:Hlev; [lia|].
  replace ((node_height p vm node - 1) * RADIX_TREE_MAP_SHIFT)
    with (Z.of_nat levels * RADIX_TREE_MAP_SHIFT) by lia.
  rewrite lookup_loop_spec. cbn [mbind result_bind].
  rewrite ptr_v_not_minus_one. reflexivity.
Qed.

Lemma land_mask_period (index k : Z) :
  Z.land (index + 64 * k) RADIX_TREE_MAP_MASK = Z.land index RADIX_TREE_MAP_MASK.
Proof.
  change RADIX_TREE_MAP_MASK with (Z.ones 6).
  rewrite !Z.land_ones by lia. change (2 ^ 6) with 64.
  rewrite Z.mul_comm. apply Z.mod_add. lia.
Qed.

(** X6: under an indirect root, a lookup sees only the lowest six bits of
    the index: the indices [index] and [index + 64 k] get the same answer
    (the same slot, or the same exception), whatever the height of the
    tree. *)
Theorem radix_tree_lookup_period (root index k : Z) :
  radix_tree_is_indirect_ptr (ptr_v vm (root_rnode p root)) <> 0 ->
  radix_tree_lookup_slot p vm root (index + 64 * k)
  = radix_tree_lookup_slot p vm root index.
Proof.
  intros Hind.
  set (node := radix_tree_indirect_to_ptr (ptr_v vm (root_rnode p root))).
  destruct (Z.eq_dec (node_height p vm node) 0) as [Hzero|Hpos].
  - rewrite !radix_tree_lookup_height_zero by assumption. reflexivity.
  - pose proof (read_uint_range vm
                  (node + get_obj_offset p "radix_tree_node" "height")) as Hrange.
    fold (node_height p vm node) in Hrange.
    rewrite !radix_tree_lookup_indirect by (assumption || (fold node; lia)).
    rewrite land_mask_period. reflexivity.
Qed.

(** X7: under a root that is not tagged indirect only page 0 can be
    resident: every page index above 0 reads as 4096 zero bytes, and the
    physical space is not consulted. *)
Theorem get_page_contents_direct_tail (phys_as : PhysicalSpace) (inode idx : Z) :
  radix_tree_is_indirect_ptr
    (ptr_v vm (root_rnode p (page_tree p vm inode))) = 0 ->
  0 < idx ->
  get_page_contents p vm phys_as inode idx = Ok (Some zero_page)
  /\ page_absent p vm inode idx.
Proof.
  intros Hdirect Hidx.
  assert (Hfind : find_get_page p vm inode idx = Ok None).
  { unfold find_get_page, radix_tree_lookup_slot, radix_tree_lookup_reads.
    rewrite Hdirect. cbn [Z.eqb]. rewrite (proj2 (Z.ltb_lt _ _) Hidx).
    reflexivity. }
  split.
  - unfold get_page_contents. rewrite Hfind. reflexivity.
  - exists None. split; [exact Hfind | reflexivity].
Qed.

(** X8: an inode whose declared size is zero or negative yields the empty
    string, and no page is fetched: the result is the same in every address
    space and profile state that gives this size. *)
Theorem get_file_contents_nonpositive (phys_as : PhysicalSpace) (inode : Z) :
  i_size p vm inode <= 0 -> get_file_contents p vm phys_as inode = Ok [].
Proof.
  intros Hsize. rewrite get_file_contents_eq.
  assert (Hnil : seqZ 0 (if i_size p vm inode mod 4096 =? 0
                         then i_size p vm inode / 4096
                         else i_size p vm inode / 4096 + 1) = []).
  { unfold seqZ. replace (Z.to_nat _) with 0%nat; [reflexivity|].
    destruct (Z.eqb_spec (i_size p vm inode mod 4096) 0);
      Z.to_euclidean_division_equations; lia. }
  rewrite Hnil. cbn [read_pages mbind result_bind].
  destruct (_ =? 0); [reflexivity|]. unfold slice_to.
  destruct (_ <? 0); cbn [length]; rewrite take_nil; reflexivity.
Qed.

(** X25: when the page tree of an inode has an indirect root whose node
    records height 0, the first shift of the descent is negative: looking up
    any page index raises [ValueError], and so does fetching the page; no
    page is reported absent. *)
Theorem find_get_page_height_zero (phys_as : PhysicalSpace) (inode idx : Z) :
  let rnode := ptr_v vm (root_rnode p (page_tree p vm inode)) in
  radix_tree_is_indirect_ptr rnode <> 0 ->
  node_height p vm (radix_tree_indirect_to_ptr rnode) = 0 ->
  find_get_page p vm inode idx = Raise ValueError
  /\ get_page_contents p vm phys_as inode idx = Raise ValueError.
Proof.
  intros rnode Hind Hzero.
  assert (Hfind : find_get_page p vm inode idx = Raise ValueError).
  { unfold find_get_page. apply radix_tree_lookup_height_zero; assumption. }
  split; [exact Hfind|].
  unfold get_page_contents. rewrite Hfind. reflexivity.
Qed.

Lemma read_pages_app (phys_as : PhysicalSpace) (inode : Z) (l1 l2 : list Z) :
  forall data,
    read_pages p vm phys_as inode data (l1 ++ l2)
    = data' ← read_pages p vm phys_as inode data l1;
      read_pages p vm phys_as inode data' l2.
Proof.
  induction l1 as [|idx l1 IH]; intros data; [reflexivity|].
  cbn [app read_pages].
  destruct (get_page_contents p vm phys_as inode idx) as [page|e];
    cbn [mbind result_bind]; [|reflexivity].
  destruct (str_add data page) as [data'|e]; cbn [mbind result_bind];
    [apply IH | reflexivity].
Qed.

(** X9: [get_file_contents] stops at the first page, in index order, whose
    fetch fails, and raises that page's exception: the one raised inside
    the fetch, or [TypeError] when the physical read answered [None]. *)
Theorem get_file_contents_first_error (phys_as : PhysicalSpace) (inode j : Z)
    (e : exn) :
  0 <= j -> j * 4096 < i_size p vm inode ->
  (forall idx, 0 <= idx < j -> fetch_error p vm phys_as inode idx = None) ->
  fetch_error p vm phys_as inode j = Some e ->
  get_file_contents p vm phys_as inode = Raise e.
Proof.
  intros Hj Hsize Hbefore Hfail. rewrite get_file_contents_eq.
  set (idxs := if i_size p vm inode mod 4096 =? 0 then i_size p vm inode / 4096
               else i_size p vm inode / 4096 + 1).
  assert (Hidxs : j < idxs).
  { subst idxs. destruct (Z.eqb_spec (i_size p vm inode mod 4096) 0);
      Z.to_euclidean_division_equations; lia. }
  replace idxs with (j + (idxs - j)) by lia.
  rewrite seqZ_app by lia. rewrite read_pages_app.
  rewrite read_pages_ok.
  2:{ intros idx Hidx. apply elem_of_seqZ in Hidx.
      specialize (Hbefore idx ltac:(lia)). unfold fetch_error in Hbefore.
      destruct (get_page_contents p vm phys_as inode idx) as [[d|]|];
        [eauto | discriminate | discriminate]. }
  cbn [mbind result_bind]. rewrite (seqZ_cons (0 + j)) by lia. cbn [read_pages].
  replace (0 + j) with j by lia.
  unfold fetch_error in Hfail.
  destruct (get_page_contents p vm phys_as inode j) as [[d|]|e'];
    [discriminate | |]; injection Hfail as <-; reflexivity.
Qed.

End PageCacheMore.

Lemma find_get_page_height_zero_demo :
  find_get_page demo_profile extra_vm 0x7400 0 = Raise ValueError
  /\ get_page_contents demo_profile extra_vm demo_phys 0x7400 0 = Raise ValueError.
Proof.
  apply (find_get_page_height_zero demo_profile extra_vm demo_phys 0x7400 0).
  - vm_compute. discriminate.
  - vm_compute. reflexivity.
Defined.

Lemma radix_tree_lookup_period_demo :
  radix_tree_lookup_slot demo_profile extra_vm 0x7308 (1 + 64 * 1)
  = radix_tree_lookup_slot demo_profile extra_vm 0x7308 1.
Proof.
  apply (radix_tree_lookup_period demo_profile extra_vm 0x7308 1 1).
  vm_compute. discriminate.
Defined.

Lemma get_page_contents_direct_tail_demo :
  get_page_contents demo_profile demo_vm demo_phys 0x7000 1 = Ok (Some zero_page)
  /\ page_absent demo_profile demo_vm 0x7000 1.
Proof.
  apply (get_page_contents_direct_tail demo_profile demo_vm demo_phys 0x7000 1).
  - vm_compute. reflexivity.
  - lia.
Defined.

(** An inode of the first image whose size field reads 0. *)
Lemma get_file_contents_nonpositive_demo :
  get_file_contents demo_profile demo_vm demo_phys 0x8000 = Ok [].
Proof.
  apply (get_file_contents_nonpositive demo_profile demo_vm demo_phys 0x8000).
  vm_compute. discriminate.
Defined.

(** Page 1 of the second image's inode 0x7200 is resident but the physical
    read fails; the inode 0x7400 has a page tree of height 0. *)
Lemma get_file_contents_first_error_demo :
  get_file_contents demo_profile extra_vm failing_phys 0x7200 = Raise TypeError
  /\ get_file_contents demo_profile extra_vm demo_phys 0x7400 = Raise ValueError.
Proof.
  split.
  - apply (get_file_contents_first_error demo_profile extra_vm failing_phys
             0x7200 1 TypeError).
    + lia.
    + vm_compute. reflexivity.
    + intros idx Hidx. assert (idx = 0) as -> by lia. vm_compute. reflexivity.
    + vm_compute. reflexivity.
  - apply (get_file_contents_first_error demo_profile extra_vm demo_phys
             0x7400 0 ValueError).
    + lia.
    + vm_compute. reflexivity.
    + intros idx Hidx. lia.
    + vm_compute. reflexivity.
Defined.

(** * Further properties: known addresses *)

Section KnownAddressesMore.

Implicit Types (known_addrs : gmap Z Z) (modules : list module_range).

Lemma address_in_module_split (module_list : list module_range) (address : Z) :
  match address_in_module module_list address with
  | Some name =>
      exists before start end_ after,
        module_list = before ++ (name, start, end_) :: after
        /\ start <= address < end_
        /\ Forall (fun m => ~ (m.1.2 <= address < m.2)) before
  | None => Forall (fun m => ~ (m.1.2 <= address < m.2)) module_list
  end.
Proof.
  induction module_list as [|[[name start] end_] rest IH]; [constructor|].
  cbn [address_in_module].
  destruct ((start <=? address) && (address <? end_)) eqn:Hin.
  - apply andb_true_iff in Hin as [Hlo Hhi].
    apply Z.leb_le in Hlo. apply Z.ltb_lt in Hhi.
    exists [], start, end_, rest. split; [reflexivity|]. split; [lia | constructor].
  - assert (Hout : ~ (start <= address < end_)).
    { intros [Hlo Hhi]. apply Z.leb_le in Hlo. apply Z.ltb_lt in Hhi.
      rewrite Hlo, Hhi in Hin. discriminate Hin. }
    destruct (address_in_module rest address) as [name'|].
    + destruct IH as (before & s & e & after & -> & Hrange & Hbefore).
      exists ((name, start, end_) :: before), s, e, after.
      split; [reflexivity|]. split; [exact Hrange|].
      constructor; [exact Hout | exact Hbefore].
    + constructor; [exact Hout | exact IH].
Qed.

Lemma address_in_module_some_iff (module_list : list module_range) (address : Z) :
  is_Some (address_in_module module_list address)
  <-> exists m, m ∈ module_list /\ m.1.2 <= address < m.2.
Proof.
  pose proof (address_in_module_split module_list address) as Hfirst.
  destruct (address_in_module module_list address) as [name|].
  - destruct Hfirst as (before & s & e & after & -> & Hrange & _). split; [|eauto].
    intros _. exists (name, s, e). split; [|exact Hrange].
    apply elem_of_app. right. left.
  - split; [intros [? [=]]|]. intros (m & Hm & Hrange).
    rewrite Forall_forall in Hfirst. destruct (Hfirst m Hm Hrange).
Qed.

Lemma address_in_module_name (module_list : list module_range) (address : Z)
    (name : string) :
  address_in_module module_list address = Some name ->
  exists m, m ∈ module_list /\ m.1.1 = name.
Proof.
  intros Hname. pose proof (address_in_module_split module_list address) as Hfirst.
  rewrite Hname in Hfirst.
  destruct Hfirst as (before & s & e & after & -> & _ & _).
  exists (name, s, e). split; [|reflexivity]. apply elem_of_app. right. left.
Qed.

(** X10: [address_in_module] answers the name of the first range, in list
    order, that holds the address: the ranges before it do not hold it; and
    it answers [None] exactly when no range of the list holds the address. *)
Theorem address_in_module_first (module_list : list module_range) (address : Z) :
  (forall name, address_in_module module_list address = Some name ->
     exists before start end_ after,
       module_list = before ++ (name, start, end_) :: after
       /\ start <= address < end_
       /\ Forall (fun m => ~ (m.1.2 <= address < m.2)) before)
  /\ (address_in_module module_list address = None
      <-> forall m, m ∈ module_list -> ~ (m.1.2 <= address < m.2)).
Proof.
  pose proof (address_in_module_split module_list address) as Hsplit.
  split.
  - intros name Hname. rewrite Hname in Hsplit. exact Hsplit.
  - split.
    + intros Hnone. rewrite Hnone in Hsplit. apply Forall_forall, Hsplit.
    + intros Hall.
      destruct (address_in_module module_list address) as [name|] eqn:Hname;
        [|reflexivity].
      destruct Hsplit as (before & s & e & after & -> & Hrange & _).
      destruct (Hall (name, s, e)); [|exact Hrange].
      apply elem_of_app. right. left.
Qed.

(** X11: [is_known_address] answers 0 or 1; with both text symbols in the
    profile and no module without a name, it answers 1 exactly for the
    addresses in the kernel text or in the range of some module. *)
Theorem is_known_address_ranges (p : Profile) (addr text etext : Z) modules :
  get_symbol p "_text" = Some text ->
  get_symbol p "_etext" = Some etext ->
  Forall (fun m => m.1.1 <> ""%string) modules ->
  (is_known_address p addr modules = 0 \/ is_known_address p addr modules = 1)
  /\ (is_known_address p addr modules = 1
      <-> text <= addr < etext
          \/ exists m, m ∈ modules /\ m.1.2 <= addr < m.2).
Proof.
  intros Htext Hetext Hnames. unfold is_known_address.
  rewrite Htext, Hetext. cbn [py_le_opt py_lt_opt].
  assert (Hmod : name_true (address_in_module modules addr) = true
                 <-> exists m, m ∈ modules /\ m.1.2 <= addr < m.2).
  { rewrite <- address_in_module_some_iff.
    destruct (address_in_module modules addr) as [name|] eqn:Hname; cbn.
    - split; [eauto|]. intros _. apply negb_true_iff, String.eqb_neq.
      destruct (address_in_module_name _ _ _ Hname) as (m & Hm & <-).
      rewrite Forall_forall in Hnames. exact (Hnames m Hm).
    - split; [discriminate | intros [? [=]]]. }
  destruct ((text <=? addr) && (addr <? etext)) eqn:Hin.
  - cbn [orb]. split; [right; reflexivity|]. split; [|reflexivity].
    intros _. left. apply andb_true_iff in Hin as [Hlo Hhi].
    apply Z.leb_le in Hlo. apply Z.ltb_lt in Hhi. lia.
  - cbn [orb].
    assert (Hout : ~ (text <= addr < etext)).
    { intros [Hlo Hhi]. apply Z.leb_le in Hlo. apply Z.ltb_lt in Hhi.
      rewrite Hlo, Hhi in Hin. discriminate Hin. }
    destruct (name_true (address_in_module modules addr)) eqn:Hname.
    + split; [right; reflexivity|]. split; [|reflexivity].
      intros _. right. apply Hmod. reflexivity.
    + split; [left; reflexivity|]. split; [discriminate|].
      intros [Hrange|Hex]; [contradiction|].
      apply Hmod in Hex. discriminate Hex.
Qed.

Lemma classify_consistent (p : Profile) modules known_addrs (addr : Z) :
  cache_consistent p modules known_addrs ->
  (classify p modules known_addrs addr).1 = is_known_address p addr modules
  /\ cache_consistent p modules (classify p modules known_addrs addr).2.
Proof.
  intros Hcons. unfold classify.
  destruct (known_addrs !! addr) as [known|] eqn:Hhit; cbn [fst snd].
  - split; [apply Hcons, Hhit | exact Hcons].
  - split; [reflexivity|]. intros a known Ha.
    destruct (Z.eq_dec addr a) as [<-|Hne].
    + rewrite lookup_insert_eq in Ha. congruence.
    + rewrite lookup_insert_ne in Ha by exact Hne. apply Hcons, Ha.
Qed.

(** X12: started with a dictionary that agrees with [is_known_address] (the
    empty one, for instance), [verify_ops] yields, in the order of
    [op_members], exactly the members whose pointer is valid, not null, and
    neither in the kernel text nor in a module, each with its address; and
    the dictionary it leaves agrees with [is_known_address] again. *)
Theorem verify_ops_reports_unknown (p : Profile) (vm : AddressSpace)
    (ops_type : string) (fops : Z) modules (op_members : list string) :
  forall known_addrs,
    cache_consistent p modules known_addrs ->
    (verify_ops p vm known_addrs ops_type fops op_members modules).1
    = (fun check => (check, ptr_v vm (ops_member p ops_type fops check)))
      <$> List.filter (op_unknown p vm ops_type fops modules) op_members
    /\ cache_consistent p modules
         (verify_ops p vm known_addrs ops_type fops op_members modules).2.
Proof.
  induction op_members as [|check rest IH]; intros known_addrs Hcons;
    [split; [reflexivity | exact Hcons]|].
  cbn [verify_ops List.filter]. unfold op_unknown at 1.
  destruct (ptr_true vm _ && negb (_ =? 0)); cbn [andb]; [|apply IH, Hcons].
  set (addr := ptr_v vm (ops_member p ops_type fops check)) in *.
  destruct (classify_consistent p modules known_addrs addr Hcons) as [Hk Hcons1].
  destruct (classify p modules known_addrs addr) as [k c1]. cbn [fst snd] in *.
  subst k. destruct (IH c1 Hcons1) as [Hys Hcons2].
  destruct (verify_ops p vm c1 ops_type fops rest modules) as [ys c2].
  cbn [fst snd] in *.
  destruct (is_known_address p addr modules =? 0); cbn [fst snd fmap list_fmap];
    (split; [|exact Hcons2]); rewrite Hys; reflexivity.
Qed.

(** X13: whatever the dictionary holds, [verify_ops] yields members of
    [op_members] only, in their order, each with the address stored in that
    member; the address is valid and not null, and the dictionary left
    holds 0 for it. *)
Theorem verify_ops_yields (p : Profile) (vm : AddressSpace)
    (ops_type : string) (fops : Z) modules (op_members : list string) :
  forall known_addrs,
    let ys := (verify_ops p vm known_addrs ops_type fops op_members modules).1 in
    let known_addrs' :=
      (verify_ops p vm known_addrs ops_type fops op_members modules).2 in
    ys.*1 `sublist_of` op_members
    /\ Forall (fun y =>
                 y.2 = ptr_v vm (ops_member p ops_type fops y.1)
                 /\ is_valid_address vm y.2 = true
                 /\ y.2 <> 0
                 /\ known_addrs' !! y.2 = Some 0) ys.
Proof.
  induction op_members as [|check rest IH]; intros known_addrs;
    [split; [constructor | constructor]|].
  cbn [verify_ops].
  destruct (ptr_true vm _ && negb (_ =? 0)) eqn:Htrue.
  2:{ destruct (IH known_addrs) as [Hsub Hall].
      split; [apply sublist_cons, Hsub | exact Hall]. }
  set (addr := ptr_v vm (ops_member p ops_type fops check)) in *.
  pose proof (classify_records p modules known_addrs addr) as Hrec.
  destruct (classify p modules known_addrs addr) as [k c1]. cbn [fst snd] in Hrec.
  pose proof (verify_ops_keeps p vm ops_type fops modules rest c1 addr k Hrec)
    as Hkept.
  destruct (IH c1) as [Hsub Hall].
  destruct (verify_ops p vm c1 ops_type fops rest modules) as [ys c2].
  cbn [fst snd] in *.
  destruct (Z.eqb_spec k 0) as [->|_]; cbn [fst snd fmap list_fmap].
  - split; [apply sublist_skip, Hsub|].
    constructor; [|exact Hall]. cbn [fst snd].
    apply andb_true_iff in Htrue as [Hvalid Hnz].
    split; [reflexivity|]. split; [exact Hvalid|].
    split; [|exact Hkept].
    apply negb_true_iff, Z.eqb_neq in Hnz. exact Hnz.
  - split; [apply sublist_cons, Hsub | exact Hall].
Qed.

End KnownAddressesMore.

Lemma is_known_address_ranges_demo :
  (is_known_address demo_profile 0xd0000000 [("ext4"%string, 0xd0000000, 0xd0001000)] = 0
   \/ is_known_address demo_profile 0xd0000000 [("ext4"%string, 0xd0000000, 0xd0001000)] = 1)
  /\ (is_known_address demo_profile 0xd0000000 [("ext4"%string, 0xd0000000, 0xd0001000)] = 1
      <-> 0xc0000000 <= 0xd0000000 < 0xc0800000
          \/ exists m, m ∈ [("ext4"%string, 0xd0000000, 0xd0001000)]
                       /\ m.1.2 <= 0xd0000000 < m.2).
Proof.
  apply (is_known_address_ranges demo_profile 0xd0000000 0xc0000000 0xc0800000
           [("ext4"%string, 0xd0000000, 0xd0001000)]).
  - reflexivity.
  - reflexivity.
  - repeat constructor. discriminate.
Defined.

Lemma verify_ops_reports_unknown_demo :
  (verify_ops demo_profile demo_vm ∅ "file_operations" 0xb000
     ["open"; "read"; "write"]%string []).1
  = (fun check => (check, ptr_v demo_vm (ops_member demo_profile "file_operations"
                                           0xb000 check)))
    <$> List.filter (op_unknown demo_profile demo_vm "file_operations" 0xb000 [])
          ["open"; "read"; "write"]%string
  /\ cache_consistent demo_profile []
       (verify_ops demo_profile demo_vm ∅ "file_operations" 0xb000
          ["open"; "read"; "write"]%string []).2.
Proof.
  apply (verify_ops_reports_unknown demo_profile demo_vm "file_operations" 0xb000 []
           ["open"; "read"; "write"]%string ∅).
  intros a known Ha. rewrite lookup_empty in Ha. discriminate Ha.
Defined.

(** * Further properties: paths and lists *)

Section PathMore.

Context (p : Profile) (vm : AddressSpace).

Lemma path_loop_chain (rdentry rmnt : Z) (ds : list Z) :
  forall acc,
    dentry_chain p vm rmnt rdentry ds = true ->
    path_loop (S (length ds)) p vm rdentry rmnt (hd rdentry ds) rmnt acc
    = Some (acc ++ (dname p vm <$> ds)).
Proof.
  induction ds as [|d rest IH]; intros acc Hchain.
  - cbn [hd length path_loop]. unfold walk_cond. rewrite !Z.eqb_refl.
    cbn. rewrite app_nil_r. reflexivity.
  - cbn [dentry_chain] in Hchain.
    repeat (apply andb_true_iff in Hchain as [Hchain ?]).
    cbn [hd length]. rewrite path_loop_eq.
    assert (Hcond : walk_cond p vm rdentry rmnt d rmnt = true).
    { unfold walk_cond. rewrite Hchain. assumption. }
    assert (Hstop : walk_stops p vm rdentry rmnt (d, rmnt) = false).
    { unfold walk_stops. rewrite Hcond.
      destruct (d =? mnt_root p vm rmnt); [discriminate|].
      destruct (d =? d_parent p vm d); [discriminate|]. reflexivity. }
    rewrite Hstop. unfold walk_next.
    destruct (d =? mnt_root p vm rmnt); [discriminate|].
    destruct (d =? d_parent p vm d); [discriminate|].
    cbn [orb fst snd].
    match goal with H : (d_parent p vm d =? _) = true |- _ =>
      apply Z.eqb_eq in H; rewrite H end.
    rewrite IH by assumption. cbn [fmap list_fmap].
    rewrite <- app_assoc. reflexivity.
Qed.

(** X14: for a dentry that lies below the root dentry through a run of
    ordinary parent links inside the root's mount, [do_get_path] returns,
    after one iteration more than there are dentries, the post-processed
    list of their stripped names; more iterations change nothing. *)
Theorem do_get_path_chain (rdentry rmnt : Z) (ds : list Z) :
  dentry_chain p vm rmnt rdentry ds = true ->
  is_valid_address vm rdentry = true ->
  is_valid_address vm (hd rdentry ds) = true ->
  forall fuel : nat, (length ds < fuel)%nat ->
    do_get_path fuel p vm rdentry rmnt (hd rdentry ds) rmnt
    = Some (format_path (dname p vm <$> ds)
              (i_ino p vm (d_inode p vm (hd rdentry ds)))).
Proof.
  intros Hchain Hroot Hleaf fuel Hfuel. unfold do_get_path.
  rewrite Hroot, Hleaf. cbn [negb orb].
  rewrite (path_loop_mono p vm rdentry rmnt _ _ _ _ _ fuel
             (path_loop_chain rdentry rmnt ds [] Hchain)) by lia.
  reflexivity.
Qed.

(** The loop only appends, and appends something when it runs at all. *)
Lemma path_loop_extends (rdentry rmnt : Z) (fuel : nat) :
  forall dentry vfsmnt acc ret,
    path_loop fuel p vm rdentry rmnt dentry vfsmnt acc = Some ret ->
    exists more, ret = acc ++ more
      /\ (walk_cond p vm rdentry rmnt dentry vfsmnt = true -> more <> []).
Proof.
  induction fuel as [|fuel IH]; intros dentry vfsmnt acc ret Hrun; [discriminate|].
  rewrite path_loop_eq in Hrun.
  destruct (walk_stops p vm rdentry rmnt (dentry, vfsmnt)).
  - injection Hrun as <-.
    destruct (walk_cond p vm rdentry rmnt dentry vfsmnt).
    + eexists. split; [reflexivity | discriminate].
    + exists []. split; [rewrite app_nil_r; reflexivity | discriminate].
  - apply IH in Hrun as (more & -> & _).
    eexists. split; [rewrite <- app_assoc; reflexivity | discriminate].
Qed.

Lemma format_path_empty (ret_path : list string) (ino : Z) :
  format_path ret_path ino = EmptyList <-> ret_path = [].
Proof.
  split; [|intros ->; reflexivity].
  intros Hempty. destruct ret_path as [|s l] eqn:Hl; [reflexivity|].
  rewrite <- Hl in Hempty. rewrite format_path_joined in Hempty by (subst; discriminate).
  cbv zeta in Hempty.
  repeat match type of Hempty with
         | (if ?c then _ else _) = _ => destruct c
         end; discriminate.
Qed.

(** X15: [do_get_path] returns the empty list in exactly three cases: the
    root dentry or the dentry is invalid, or the walk starts where it ends
    (at the root pair, or at a dentry whose name pointer is invalid); in
    every other case in which it returns, it returns a string. *)
Theorem do_get_path_empty (rdentry rmnt dentry vfsmnt : Z) (fuel : nat) :
  (is_valid_address vm rdentry = false \/ is_valid_address vm dentry = false
   \/ walk_cond p vm rdentry rmnt dentry vfsmnt = false ->
   do_get_path (S fuel) p vm rdentry rmnt dentry vfsmnt = Some EmptyList)
  /\ (do_get_path (S fuel) p vm rdentry rmnt dentry vfsmnt = Some EmptyList ->
      is_valid_address vm rdentry = false \/ is_valid_address vm dentry = false
      \/ walk_cond p vm rdentry rmnt dentry vfsmnt = false).
Proof.
  unfold do_get_path. split.
  - intros [Hr|[Hd|Hcond]].
    + rewrite Hr. reflexivity.
    + rewrite Hd, orb_true_r. reflexivity.
    + destruct (negb _ || negb _); [reflexivity|].
      cbn [path_loop]. rewrite Hcond. reflexivity.
  - destruct (is_valid_address vm rdentry); [|auto].
    destruct (is_valid_address vm dentry); [|auto].
    cbn [negb orb]. intros Hrun. right; right.
    destruct (path_loop (S fuel) p vm rdentry rmnt dentry vfsmnt []) as [ret|]
      eqn:Hloop; [|discriminate].
    cbn [mbind option_bind] in Hrun. injection Hrun as Hfmt.
    apply format_path_empty in Hfmt. subst ret.
    apply path_loop_extends in Hloop as (more & Hmore & Hne).
    destruct (walk_cond p vm rdentry rmnt dentry vfsmnt); [|reflexivity].
    destruct more; [destruct (Hne eq_refl eq_refl) | discriminate Hmore].
Qed.

Lemma partial_loop_chain (top : Z) (ds : list Z) :
  forall acc,
    partial_chain p vm top ds = true ->
    partial_loop (S (length ds)) p vm (hd top ds) acc
    = Some (acc ++ partial_names p vm ds).
Proof.
  induction ds as [|d rest IH]; intros acc Hchain.
  - cbn [hd length partial_loop]. cbn [partial_chain] in Hchain.
    assert (Hend : is_valid_address vm top && negb (top =? d_parent p vm top)
                   = false).
    { destruct (is_valid_address vm top); [|reflexivity].
      cbn [negb orb andb] in *. rewrite Hchain. reflexivity. }
    rewrite Hend. cbn. rewrite app_nil_r. reflexivity.
  - cbn [partial_chain] in Hchain.
    repeat (apply andb_true_iff in Hchain as [Hchain ?]).
    cbn [hd length]. change (partial_loop (S (S (length rest))) p vm d acc)
      with (if is_valid_address vm d && negb (d =? d_parent p vm d) then
              partial_loop (S (length rest)) p vm (d_parent p vm d)
                (if is_valid_address vm (d_name_name p vm d)
                 then acc ++ [dereference_as_String vm (d_name_name p vm d) 255]
                 else acc)
            else Some acc).
    rewrite Hchain.
    match goal with H : negb _ = true |- _ => rewrite H end. cbn [andb].
    match goal with H : (d_parent p vm d =? _) = true |- _ =>
      apply Z.eqb_eq in H; rewrite H end.
    rewrite IH by assumption. unfold partial_names. cbn [mbind list_bind].
    destruct (is_valid_address vm (d_name_name p vm d));
      [rewrite <- app_assoc|]; reflexivity.
Qed.

(** X16: along a run of valid dentries that ends at an invalid dentry or at
    one that is its own parent, [get_partial_path] returns the names joined
    with "/" from the top down; the top itself gives no segment, and a
    dentry whose name pointer is invalid is left out. *)
Theorem get_partial_path_chain (top : Z) (ds : list Z) :
  partial_chain p vm top ds = true ->
  get_partial_path (S (length ds)) p vm (hd top ds)
  = Some (join "/" (rev (partial_names p vm ds))).
Proof.
  intros Hchain. unfold get_partial_path.
  rewrite (partial_loop_chain top ds [] Hchain). reflexivity.
Qed.

(** X17: on a linked list whose last [list_member] pointer is not valid,
    [walk_internal_list] yields one object of the given type per node, at
    the node's address and in list order, and then stops. *)
Theorem walk_internal_list_chain (struct_name list_member : string)
    (nodes : list Z) (last_next : Z) :
  list_chain p vm struct_name list_member nodes last_next = true ->
  walk_internal_list (S (length nodes)) p vm struct_name list_member
    (hd last_next nodes)
  = Some (Object struct_name <$> nodes).
Proof.
  induction nodes as [|n rest IH]; intros Hchain.
  - cbn [list_chain] in Hchain. cbn [hd length walk_internal_list].
    apply negb_true_iff in Hchain. rewrite Hchain. reflexivity.
  - cbn [list_chain] in Hchain.
    repeat (apply andb_true_iff in Hchain as [Hchain ?]).
    cbn [hd length]. cbn [walk_internal_list]. rewrite Hchain.
    match goal with H : (read_ptr vm _ =? _) = true |- _ =>
      apply Z.eqb_eq in H; rewrite H end.
    cbn [walk_internal_list] in IH. rewrite IH by assumption. reflexivity.
Qed.

(** [get_obj] inverts member addressing: the member it was asked about
    lies, in the object returned, at the pointer given; and [SHMEM_I] is
    [get_obj] for the [vfs_inode] member of [shmem_inode_info]. *)
Lemma get_obj_member (ptr : Z) (sname member : string) :
  member_addr p (get_obj p ptr sname member) member = ptr
  /\ obj_type (get_obj p ptr sname member) = sname
  /\ SHMEM_I p ptr = get_obj p ptr "shmem_inode_info" "vfs_inode"
  /\ member_addr p (SHMEM_I p ptr) "vfs_inode" = ptr.
Proof.
  unfold member_addr, get_obj, SHMEM_I. cbn [obj_offset obj_type].
  repeat split; lia.
Qed.

End PathMore.

(** X18: no mode is both a directory and a regular file when the two type
    constants differ, and both tests look only at the bits of [S_IFMT]. *)
Theorem S_ISDIR_S_ISREG_exclusive (fl : linux_flags) (mode : Z) :
  S_IFDIR fl <> S_IFREG fl ->
  (S_ISDIR fl mode = true -> S_ISREG fl mode = false)
  /\ S_ISDIR fl (Z.land mode (S_IFMT fl)) = S_ISDIR fl mode
  /\ S_ISREG fl (Z.land mode (S_IFMT fl)) = S_ISREG fl mode.
Proof.
  intros Hne. unfold S_ISDIR, S_ISREG.
  rewrite <- Z.land_assoc, Z.land_diag. split; [|split; reflexivity].
  intros Hdir. apply Z.eqb_eq in Hdir. apply Z.eqb_neq. congruence.
Qed.

Lemma S_ISDIR_S_ISREG_exclusive_demo :
  (S_ISDIR demo_flags 0x41ed = true -> S_ISREG demo_flags 0x41ed = false)
  /\ S_ISDIR demo_flags (Z.land 0x41ed (S_IFMT demo_flags)) = S_ISDIR demo_flags 0x41ed
  /\ S_ISREG demo_flags (Z.land 0x41ed (S_IFMT demo_flags)) = S_ISREG demo_flags 0x41ed.
Proof.
  apply (S_ISDIR_S_ISREG_exclusive demo_flags 0x41ed). vm_compute. discriminate.
Defined.

Lemma do_get_path_chain_demo :
  do_get_path 3 demo_profile extra_vm 0x5000 0x3000 0x6400 0x3000
  = Some (PathStr "/etc/passwd").
Proof.
  apply (do_get_path_chain demo_profile extra_vm 0x5000 0x3000 [0x6400; 0x6000]).
  - vm_compute. reflexivity.
  - vm_compute. reflexivity.
  - vm_compute. reflexivity.
  - cbn [length]. lia.
Defined.

Lemma do_get_path_empty_demo :
  do_get_path 1 demo_profile demo_vm 0x5000 0x3000 0x5000 0x3000 = Some EmptyList.
Proof.
  apply (proj1 (do_get_path_empty demo_profile demo_vm 0x5000 0x3000 0x5000 0x3000 0)).
  right; right. vm_compute. reflexivity.
Defined.

Lemma get_partial_path_chain_demo :
  get_partial_path 4 demo_profile extra_vm 0x6500 = Some "etc/passwd"%string.
Proof.
  apply (get_partial_path_chain demo_profile extra_vm 0x5000 [0x6500; 0x6400; 0x6000]).
  vm_compute. reflexivity.
Defined.

Lemma walk_internal_list_chain_demo :
  walk_internal_list 4 demo_profile extra_vm "node" "read" 0x6100
  = Some [Object "node" 0x6100; Object "node" 0x6200; Object "node" 0x6300].
Proof.
  apply (walk_internal_list_chain demo_profile extra_vm "node" "read"
           [0x6100; 0x6200; 0x6300] 0).
  vm_compute. reflexivity.
Defined.

(** * Further properties: the shape of a returned path *)

Section PathShape.

Lemma prefix_app (pre : string) :
  forall s, String.prefix pre s = true -> exists t, s = (pre +:+ t)%string.
Proof.
  induction pre as [|a pre IH]; intros s Hpre; [exists s; reflexivity|].
  destruct s as [|b s]; [discriminate|]. cbn [String.prefix] in Hpre.
  destruct (ascii_dec a b) as [<-|]; [|discriminate].
  apply IH in Hpre as [t ->]. exists t. reflexivity.
Qed.

(** X19: a string returned by the post-processing of [do_get_path] is never
    empty, and it begins with "/" unless it is the literal "inotify" or a
    socket or pipe name, which begins with "socket" or "pipe". *)
Theorem format_path_shape (ret_path : list string) (ino : Z) (s : string) :
  format_path ret_path ino = PathStr s ->
  s <> ""%string
  /\ (startswith s "/" = true \/ startswith s "socket" = true
      \/ startswith s "pipe" = true \/ s = "inotify"%string).
Proof.
  intros Hfmt.
  assert (Hne : ret_path <> []) by (intros ->; discriminate Hfmt).
  rewrite (format_path_joined _ _ Hne) in Hfmt. cbv zeta in Hfmt.
  set (ret_val := joined ret_path) in *. clearbody ret_val.
  unfold startswith in *.
  destruct (String.prefix "socket:" ret_val) eqn:Hsock.
  { apply prefix_app in Hsock as [t ->]. cbn [orb] in Hfmt.
    destruct (negb _); injection Hfmt as <-.
    - destruct t; (split; [discriminate|]); right; left; reflexivity.
    - split; [discriminate|]. right; left. reflexivity. }
  destruct (String.prefix "pipe:" ret_val) eqn:Hpipe.
  { apply prefix_app in Hpipe as [t ->]. cbn [orb] in Hfmt.
    destruct (negb _); injection Hfmt as <-.
    - destruct t; (split; [discriminate|]); right; right; left; reflexivity.
    - split; [discriminate|]. right; right; left. reflexivity. }
  cbn [orb] in Hfmt.
  destruct (String.eqb_spec ret_val "inotify") as [->|_]; injection Hfmt as <-.
  - split; [discriminate|]. right; right; right. reflexivity.
  - split; [discriminate|]. left. destruct ret_val; reflexivity.
Qed.

End PathShape.

Lemma format_path_shape_demo :
  ("socket:[999]" <> "")%string
  /\ (startswith "socket:[999]" "/" = true \/ startswith "socket:[999]" "socket" = true
      \/ startswith "socket:[999]" "pipe" = true \/ "socket:[999]" = "inotify")%string.
Proof.
  apply (format_path_shape ["socket:"%string] 999 "socket:[999]"). reflexivity.
Defined.

(** * Further properties: the root of a process *)

Section FindRootMore.

Implicit Types (pid_dict : gmap Z EPROCESS) (pid : Z).

Lemma ancestor_absent pid_dict (n : nat) pid :
  pid_dict !! pid = None -> ancestor pid_dict n pid = pid.
Proof. intros Habs. destruct n; cbn [ancestor]; [|rewrite Habs]; reflexivity. Qed.

Lemma ancestor_add pid_dict (a b : nat) :
  forall pid,
    ancestor pid_dict (a + b) pid = ancestor pid_dict b (ancestor pid_dict a pid).
Proof.
  induction a as [|a IH]; intros pid; [reflexivity|].
  cbn [Nat.add ancestor].
  destruct (pid_dict !! pid) as [task|] eqn:Hpid; [apply IH|].
  rewrite ancestor_absent by exact Hpid. reflexivity.
Qed.

(** What a returned root is, whatever the fuel it was found with. *)
Lemma find_root_run pid_dict pid (fuel : nat) (r : Z) :
  _find_root fuel pid_dict pid = Some r ->
  exists n : nat,
    r = ancestor pid_dict n pid
    /\ (forall i, (i < n)%nat -> is_Some (pid_dict !! ancestor pid_dict i pid))
    /\ (forall i j, (i < j < n)%nat ->
          ancestor pid_dict i pid <> ancestor pid_dict j pid)
    /\ (pid_dict !! r = None
        \/ exists j, (j < n)%nat /\ r = ancestor pid_dict j pid).
Proof.
  intros Hrun. unfold _find_root in Hrun.
  destruct (find_root_loop fuel pid_dict ∅ pid) as [[r0 seen0]|] eqn:Hloop;
    [|discriminate].
  injection Hrun as ->.
  destruct (find_root_loop_spec (fuel + S (size pid_dict)) pid_dict ∅ pid)
    as (n & r' & seen' & Hbig & _ & Hr & Hvis & Hnodup & Hseen & Hstop).
  { set_solver. }
  { rewrite difference_empty_L, size_dom. lia. }
  rewrite (find_root_loop_mono _ _ _ _ _ (fuel + S (size pid_dict)) Hloop) in Hbig
    by lia.
  injection Hbig as <- <-.
  exists n. split; [exact Hr|].
  split; [intros i Hi; apply (Hvis i Hi)|].
  split; [exact Hnodup|].
  destruct Hstop as [Habs|Hin]; [left; exact Habs|].
  right. apply Hseen in Hin as [Hin|Hin]; [set_solver | exact Hin].
Qed.

Lemma find_root_returns pid_dict pid (fuel : nat) :
  (size pid_dict < fuel)%nat -> is_Some (_find_root fuel pid_dict pid).
Proof.
  intros Hfuel.
  destruct (find_root_loop_spec fuel pid_dict ∅ pid) as (n & r & seen' & Hrun & _).
  { set_solver. }
  { rewrite difference_empty_L, size_dom. lia. }
  unfold _find_root. rewrite Hrun. eauto.
Qed.

(** X20: a root returned by [_find_root] is an ancestor of the starting
    PID, and it is either a PID that is not in the map (the missing parent
    of the topmost known process) or a PID on a cycle of the parent links;
    a starting PID that is not in the map is returned as it is. *)
Theorem find_root_absent_or_cycle pid_dict pid (fuel : nat) (r : Z) :
  _find_root fuel pid_dict pid = Some r ->
  (exists n, r = ancestor pid_dict n pid)
  /\ (pid_dict !! r = None
      \/ exists k : nat, (0 < k)%nat /\ ancestor pid_dict k r = r)
  /\ (pid_dict !! pid = None -> r = pid).
Proof.
  intros Hrun.
  destruct (find_root_run _ _ _ _ Hrun) as (n & Hr & Hvis & _ & Hstop).
  split; [eauto|]. split.
  - destruct Hstop as [Habs|(j & Hj & Hrj)]; [left; exact Habs|].
    right. exists (n - j)%nat. split; [lia|].
    rewrite Hrj at 1. rewrite <- ancestor_add.
    replace (j + (n - j))%nat with n by lia. symmetry. exact Hr.
  - intros Habs. rewrite Hr. apply ancestor_absent, Habs.
Qed.

Lemma ancestor_period pid_dict (k : nat) (r : Z) :
  ancestor pid_dict k r = r ->
  forall (times m : nat),
    ancestor pid_dict (times * k + m) r = ancestor pid_dict m r.
Proof.
  intros Hk times. induction times as [|times IH]; intros m; [reflexivity|].
  replace (S times * k + m)%nat with (k + (times * k + m))%nat by lia.
  rewrite ancestor_add, Hk. apply IH.
Qed.

(** X21: [_find_root] is idempotent: the root of a root is that root. *)
Theorem find_root_idempotent pid_dict pid (fuel fuel' : nat) (r : Z) :
  _find_root fuel pid_dict pid = Some r ->
  (size pid_dict < fuel')%nat ->
  _find_root fuel' pid_dict r = Some r.
Proof.
  intros Hrun Hfuel.
  destruct (pid_dict !! r) as [task|] eqn:Hr.
  2:{ destruct fuel' as [|fuel']; [lia|].
      unfold _find_root. cbn [find_root_loop]. rewrite Hr. reflexivity. }
  assert (Hcyc : exists k : nat, (0 < k)%nat /\ ancestor pid_dict k r = r).
  { destruct (find_root_run _ _ _ _ Hrun) as (n & Hn & _ & _ & Hstop).
    destruct Hstop as [Habs|(j & Hj & Hrj)]; [congruence|].
    exists (n - j)%nat. split; [lia|].
    rewrite Hrj at 1. rewrite <- ancestor_add.
    replace (j + (n - j))%nat with n by lia. symmetry. exact Hn. }
  destruct Hcyc as (k & Hk & Hper).
  assert (Hin : forall m, is_Some (pid_dict !! ancestor pid_dict m r)).
  { intros m.
    destruct (pid_dict !! ancestor pid_dict m r) as [t|] eqn:Hm; [eauto|].
    exfalso.
    assert (Hstuck : ancestor pid_dict (m + (S m * k - m)) r = ancestor pid_dict m r).
    { rewrite ancestor_add. apply ancestor_absent, Hm. }
    replace (m + (S m * k - m))%nat with (S m * k + 0)%nat in Hstuck by nia.
    rewrite (ancestor_period _ _ _ Hper) in Hstuck. cbn [ancestor] in Hstuck.
    rewrite <- Hstuck, Hr in Hm. discriminate Hm. }
  destruct (find_root_returns pid_dict r fuel' Hfuel) as [r' Hr'].
  rewrite Hr'. f_equal.
  destruct (find_root_run _ _ _ _ Hr') as (n & Hn & _ & Hnodup & Hstop).
  destruct Hstop as [Hnone|(i & Hi & Hri)].
  { destruct (Hin n) as [t Ht]. rewrite <- Hn, Hnone in Ht. discriminate Ht. }
  destruct i as [|i]; [exact Hri|].
  exfalso. apply (Hnodup i (n - 1)%nat ltac:(lia)).
  rewrite <- (ancestor_period _ _ _ Hper (S n) i).
  rewrite <- (ancestor_period _ _ _ Hper (S n) (n - 1)).
  replace (S n * k + i)%nat with (S i + (S n * k - 1))%nat by nia.
  replace (S n * k + (n - 1))%nat with (n + (S n * k - 1))%nat by nia.
  rewrite !(ancestor_add _ _ (S n * k - 1)). rewrite <- Hri, <- Hn. reflexivity.
Qed.

End FindRootMore.

Lemma find_root_absent_or_cycle_demo :
  (exists n, 1 = ancestor demo_pids n 7)
  /\ (demo_pids !! 1 = None
      \/ exists k : nat, (0 < k)%nat /\ ancestor demo_pids k 1 = 1)
  /\ (demo_pids !! 7 = None -> 1 = 7).
Proof.
  apply (find_root_absent_or_cycle demo_pids 7 6 1). vm_compute. reflexivity.
Defined.

Lemma find_root_idempotent_demo : _find_root 6 demo_pids 1 = Some 1.
Proof.
  apply (find_root_idempotent demo_pids 7 6 6 1).
  - vm_compute. reflexivity.
  - vm_compute. lia.
Defined.

(** * Further properties: the process dictionary and the tree *)

Section ProcessDict.

Lemma make_process_dict_acc (procs : list EPROCESS) :
  forall (acc : gmap Z EPROCESS) (k : Z),
    foldl (fun result eprocess => <[UniqueProcessId eprocess := eprocess]> result)
          acc procs !! k
    = match last (filter (fun e => UniqueProcessId e = k) procs) with
      | Some e => Some e
      | None => acc !! k
      end.
Proof.
  induction procs as [|e procs IH]; intros acc k; [reflexivity|].
  cbn [foldl]. rewrite IH, filter_cons.
  destruct (decide (UniqueProcessId e = k)) as [<-|Hne].
  - destruct (filter _ procs) as [|e' l] eqn:Hfilter.
    + cbn [last]. apply lookup_insert_eq.
    + change (last (e :: e' :: l)) with (last (e' :: l)).
      destruct (last (e' :: l)) eqn:Hlast; [reflexivity|].
      apply last_None in Hlast. discriminate Hlast.
  - destruct (last (filter _ procs)); [reflexivity|].
    apply lookup_insert_ne, Hne.
Qed.

Lemma make_process_dict_keyed (procs : list EPROCESS) :
  keyed (_make_process_dict procs).
Proof.
  intros k e He. unfold _make_process_dict in He.
  rewrite make_process_dict_acc, lookup_empty in He.
  destruct (last (filter (fun e0 => UniqueProcessId e0 = k) procs)) as [e'|]
    eqn:Hlast; [|discriminate].
  injection He as ->. apply last_Some in Hlast as [l' Hl'].
  assert (Hin : e ∈ filter (fun e0 => UniqueProcessId e0 = k) procs).
  { rewrite Hl'. apply elem_of_app. right. left. }
  apply list_elem_of_filter in Hin. tauto.
Qed.

(** X22: [_make_process_dict] stores under each PID the last process of
    the list that has this PID; so every key is the PID of the process
    stored under it, and every listed process has its PID among the keys. *)
Theorem make_process_dict_lookup (procs : list EPROCESS) :
  (forall k, _make_process_dict procs !! k
             = last (filter (fun e => UniqueProcessId e = k) procs))
  /\ keyed (_make_process_dict procs)
  /\ (forall e, e ∈ procs ->
        is_Some (_make_process_dict procs !! UniqueProcessId e))
  /\ (forall k e, _make_process_dict procs !! k = Some e -> e ∈ procs).
Proof.
  assert (Hlookup : forall k, _make_process_dict procs !! k
                    = last (filter (fun e => UniqueProcessId e = k) procs)).
  { intros k. unfold _make_process_dict. rewrite make_process_dict_acc.
    destruct (last _); [reflexivity | apply lookup_empty]. }
  assert (Hlast : forall k e, _make_process_dict procs !! k = Some e ->
                    e ∈ procs /\ UniqueProcessId e = k).
  { intros k e He. rewrite Hlookup in He.
    apply last_Some in He as [l' Hl'].
    assert (Hin : e ∈ filter (fun e => UniqueProcessId e = k) procs).
    { rewrite Hl'. apply elem_of_app. right. left. }
    apply list_elem_of_filter in Hin. tauto. }
  split; [exact Hlookup|]. split; [intros k e He; apply (Hlast k e He)|].
  split; [|intros k e He; apply (Hlast k e He)].
  intros e He. rewrite Hlookup.
  destruct (last (filter (fun e0 => UniqueProcessId e0 = UniqueProcessId e) procs))
    eqn:Hl; [eauto|].
  apply last_None in Hl.
  assert (Hin : e ∈ filter (fun e0 => UniqueProcessId e0 = UniqueProcessId e) procs)
    by (apply list_elem_of_filter; auto).
  rewrite Hl in Hin. apply elem_of_nil in Hin. destruct Hin.
Qed.

Lemma keyed_subseteq (d d' : gmap Z EPROCESS) : keyed d -> d' ⊆ d -> keyed d'.
Proof. intros Hk Hsub k e He. apply Hk. eapply lookup_weaken; eassumption. Qed.

Context (order : dict_order).

(** The order lists the items of the dictionary, whatever their order. *)
Hypothesis order_items :
  forall (d : gmap Z EPROCESS) k e, (k, e) ∈ order d <-> d !! k = Some e.

(** The loop over the tasks listed when [draw_children] began with the
    dictionary [D]; [dc] is what is left of it. *)
Lemma draw_each_spec
    (rec : Z -> gmap Z EPROCESS -> option (list row * gmap Z EPROCESS))
    (bound : nat) (pad : nat) (pid : Z) (D : gmap Z EPROCESS) :
  (forall pid' dc, keyed dc -> (size dc < bound)%nat ->
     exists rows d', rec pid' dc = Some (rows, d')
       /\ d' ⊆ dc
       /\ (forall k e, dc !! k = Some e -> d' !! k = None -> e ∈ rows.*2)
       /\ (forall r, r ∈ rows -> dc !! UniqueProcessId r.2 = Some r.2)) ->
  keyed D -> (size D <= bound)%nat ->
  forall (tasks : list EPROCESS) (dc : gmap Z EPROCESS) (acc : list row),
    (forall e, e ∈ tasks -> D !! UniqueProcessId e = Some e) ->
    dc ⊆ D -> (dc = D \/ (size dc < size D)%nat) ->
    exists rows d',
      draw_each rec pad pid tasks dc acc = Some (acc ++ rows, d')
      /\ d' ⊆ dc
      /\ (forall k e, dc !! k = Some e -> d' !! k = None -> e ∈ rows.*2)
      /\ (forall r, r ∈ rows -> D !! UniqueProcessId r.2 = Some r.2)
      /\ (forall e, e ∈ tasks -> InheritedFromUniqueProcessId e = pid ->
            d' !! UniqueProcessId e = None /\ e ∈ rows.*2).
Proof.
  intros Hrec HkD HsD tasks.
  induction tasks as [|task tasks IH]; intros dc acc Htasks Hsub Hsize.
  { exists [], dc. cbn [draw_each]. rewrite app_nil_r.
    split; [reflexivity|]. split; [reflexivity|].
    split; [intros k e He Hn; congruence|].
    split; intros ? Hin; apply elem_of_nil in Hin; destruct Hin. }
  cbn [draw_each].
  assert (Htasks' : forall e, e ∈ tasks -> D !! UniqueProcessId e = Some e).
  { intros e He. apply Htasks. right. exact He. }
  destruct (decide (InheritedFromUniqueProcessId task <> pid)) as [Hne|Heq].
  { destruct (IH dc acc Htasks' Hsub Hsize)
      as (rows & d' & Hrun & Hsub' & Hrem & Hfrom & Hkids).
    exists rows, d'. repeat (split; [assumption|]).
    intros e He Hpid. apply elem_of_cons in He as [->|He]; [contradiction|].
    apply Hkids; assumption. }
  pose proof (Htasks task ltac:(left)) as Htask.
  set (dc1 := delete (UniqueProcessId task) dc).
  assert (Hsub1 : dc1 ⊆ dc) by apply delete_subseteq.
  assert (Hsize1 : (size dc1 < size D)%nat).
  { destruct Hsize as [->|Hlt].
    - subst dc1. rewrite map_size_delete_Some by eauto.
      assert (size D <> 0)%nat by (apply map_size_ne_0_lookup_2 with
                                     (i := UniqueProcessId task); eauto).
      lia.
    - pose proof (map_subseteq_size _ _ Hsub1). lia. }
  destruct (Hrec (UniqueProcessId task) dc1) as (rows1 & d2 & Hrun1 & Hsub2 & Hrem1 & Hfrom1).
  { eapply keyed_subseteq; [exact HkD|]. etransitivity; eassumption. }
  { lia. }
  rewrite Hrun1.
  destruct (IH d2 ((acc ++ [(pad, task)]) ++ rows1) Htasks')
    as (rows2 & d' & Hrun2 & Hsub3 & Hrem2 & Hfrom2 & Hkids2).
  { etransitivity; [exact Hsub2|]. etransitivity; eassumption. }
  { right. pose proof (map_subseteq_size _ _ Hsub2). lia. }
  exists ((pad, task) :: rows1 ++ rows2), d'.
  split.
  { rewrite Hrun2. f_equal. f_equal. rewrite <- !app_assoc. reflexivity. }
  split; [etransitivity; [exact Hsub3|]; etransitivity; eassumption|].
  split.
  { intros k e He Hgone. rewrite fmap_cons, fmap_app. cbn [snd].
    destruct (decide (k = UniqueProcessId task)) as [->|Hk].
    - apply elem_of_cons. left.
      pose proof (lookup_weaken _ _ _ _ He Hsub). congruence.
    - apply elem_of_cons. right. apply elem_of_app.
      assert (He1 : dc1 !! k = Some e).
      { subst dc1. apply lookup_delete_Some. split; [congruence | exact He]. }
      destruct (d2 !! k) as [e2|] eqn:Hd2.
      + right. apply (Hrem2 k e); [|exact Hgone].
        pose proof (lookup_weaken _ _ _ _ Hd2 Hsub2). congruence.
      + left. apply (Hrem1 k e He1 Hd2). }
  split.
  { intros r Hr. apply elem_of_cons in Hr as [->|Hr]; [exact Htask|].
    apply elem_of_app in Hr as [Hr|Hr]; [|apply Hfrom2, Hr].
    eapply lookup_weaken; [apply Hfrom1, Hr|]. etransitivity; eassumption. }
  intros e He Hpid. apply elem_of_cons in He as [->|He].
  - split; [|rewrite fmap_cons; apply elem_of_cons; left; reflexivity].
    eapply lookup_weaken_None; [|etransitivity; [exact Hsub3 | exact Hsub2]].
    subst dc1. apply lookup_delete_eq.
  - destruct (Hkids2 e He Hpid) as [Hgone Hin]. split; [exact Hgone|].
    rewrite fmap_cons, fmap_app. apply elem_of_cons. right.
    apply elem_of_app. right. exact Hin.
Qed.

Lemma draw_children_run (fuel : nat) :
  forall (pad : nat) (pid : Z) (process_dict : gmap Z EPROCESS),
    keyed process_dict ->
    (size process_dict < fuel)%nat ->
    exists rows process_dict',
      draw_children order fuel pad pid process_dict = Some (rows, process_dict')
      /\ process_dict' ⊆ process_dict
      /\ (forall k e, process_dict !! k = Some e ->
            InheritedFromUniqueProcessId e = pid -> process_dict' !! k = None)
      /\ (forall k e, process_dict !! k = Some e -> process_dict' !! k = None ->
            e ∈ rows.*2)
      /\ (forall r, r ∈ rows -> process_dict !! UniqueProcessId r.2 = Some r.2).
Proof.
  induction fuel as [|fuel IH]; intros pad pid d Hkeyed Hsize; [lia|].
  cbn [draw_children].
  destruct (draw_each_spec (draw_children order fuel (S pad)) fuel pad pid d)
    with (tasks := (order d).*2) (dc := d) (acc := @nil row)
    as (rows & d' & Hrun & Hsub & Hrem & Hfrom & Hkids).
  - intros pid' dc Hk Hs.
    destruct (IH (S pad) pid' dc Hk Hs) as (rows & d' & Hrun & Hsub & _ & Hrem & Hfrom).
    eauto 10.
  - exact Hkeyed.
  - lia.
  - intros e He. apply list_elem_of_fmap in He as ([k e'] & -> & Hin).
    apply order_items in Hin. cbn [snd]. rewrite (Hkeyed _ _ Hin). exact Hin.
  - reflexivity.
  - left. reflexivity.
  - exists rows, d'. split; [exact Hrun|]. split; [exact Hsub|].
    split; [|split; assumption].
    intros k e He Hpid. rewrite <- (Hkeyed _ _ He).
    apply Hkids; [|exact Hpid].
    apply list_elem_of_fmap. exists (k, e). split; [reflexivity|].
    apply order_items, He.
Qed.

Lemma draw_each_no_match
    (rec : Z -> gmap Z EPROCESS -> option (list row * gmap Z EPROCESS))
    (pad : nat) (pid : Z) (tasks : list EPROCESS) (dc : gmap Z EPROCESS)
    (acc : list row) :
  (forall e, e ∈ tasks -> InheritedFromUniqueProcessId e <> pid) ->
  draw_each rec pad pid tasks dc acc = Some (acc, dc).
Proof.
  induction tasks as [|task tasks IH]; intros Hnone; [reflexivity|].
  cbn [draw_each].
  destruct (decide (InheritedFromUniqueProcessId task <> pid)) as [_|Heq].
  - apply IH. intros e He. apply Hnone. right. exact He.
  - destruct Heq. apply Hnone. left.
Qed.

(** X23: on a dictionary keyed by PID, [draw_children] returns when given
    more fuel than the dictionary has entries.  It takes entries away and
    adds none; every process whose parent is [pid] is taken away; every
    process taken away has a row; and every row shows a process of the
    dictionary.  When no process has [pid] as its parent, nothing is
    written and the dictionary is left as it is. *)
Theorem draw_children_spec (fuel : nat) (pad : nat) (pid : Z)
    (process_dict : gmap Z EPROCESS) :
  keyed process_dict ->
  (size process_dict < fuel)%nat ->
  exists rows process_dict',
    draw_children order fuel pad pid process_dict = Some (rows, process_dict')
    /\ process_dict' ⊆ process_dict
    /\ (forall k e, process_dict !! k = Some e ->
          InheritedFromUniqueProcessId e = pid -> process_dict' !! k = None)
    /\ (forall k e, process_dict !! k = Some e -> process_dict' !! k = None ->
          e ∈ rows.*2)
    /\ (forall r, r ∈ rows -> process_dict !! UniqueProcessId r.2 = Some r.2)
    /\ ((forall k e, process_dict !! k = Some e ->
           InheritedFromUniqueProcessId e <> pid) ->
        rows = [] /\ process_dict' = process_dict).
Proof.
  intros Hkeyed Hsize.
  destruct (draw_children_run fuel pad pid process_dict Hkeyed Hsize)
    as (rows & d' & Hrun & Hsub & Hkids & Hrem & Hfrom).
  exists rows, d'. repeat (split; [assumption|]).
  intros Hnone. destruct fuel as [|fuel]; [lia|].
  cbn [draw_children] in Hrun. rewrite draw_each_no_match in Hrun.
  - injection Hrun as <- <-. split; reflexivity.
  - intros e He. apply list_elem_of_fmap in He as ([k e'] & -> & Hin).
    apply order_items in Hin. exact (Hnone k e' Hin).
Qed.

(** Some process of the dictionary has the root found as its parent. *)
Lemma find_root_has_child (d : gmap Z EPROCESS) (key0 root : Z) (fuel : nat) :
  is_Some (d !! key0) ->
  _find_root fuel d key0 = Some root ->
  exists k e, d !! k = Some e /\ InheritedFromUniqueProcessId e = root.
Proof.
  intros Hkey Hroot.
  destruct (find_root_run _ _ _ _ Hroot) as (n & Hn & Hvis & _ & Hstop).
  destruct n as [|n].
  { cbn [ancestor] in Hn. subst root. destruct Hkey as [e He].
    destruct Hstop as [Habs|(j & Hj & _)]; [congruence | lia]. }
  destruct (Hvis n ltac:(lia)) as [e He].
  exists (ancestor d n key0), e. split; [exact He|].
  rewrite Hn. replace (S n) with (n + 1)%nat by lia.
  rewrite ancestor_add. cbn [ancestor]. rewrite He. reflexivity.
Qed.

Lemma render_loop_spec (fuel : nat) :
  forall (d : gmap Z EPROCESS) (acc : list row),
    keyed d -> (size d < fuel)%nat ->
    exists rows,
      render_loop order fuel d acc = Some (acc ++ rows)
      /\ (forall e, (exists k, d !! k = Some e) <-> e ∈ rows.*2).
Proof.
  induction fuel as [|fuel IH]; intros d acc Hkeyed Hsize; [lia|].
  cbn [render_loop].
  destruct (decide (d = ∅)) as [->|Hne].
  { exists []. rewrite app_nil_r. split; [reflexivity|].
    intros e. split.
    - intros [k Hk]. rewrite lookup_empty in Hk. discriminate Hk.
    - intros Hin. apply elem_of_nil in Hin. destruct Hin. }
  destruct (map_choose _ Hne) as (k0 & e0 & Hk0).
  destruct (order d) as [|[key0 e1] rest] eqn:Horder.
  { apply order_items in Hk0. rewrite Horder in Hk0.
    apply elem_of_nil in Hk0. destruct Hk0. }
  cbn [fmap list_fmap fst].
  assert (Hkey0 : d !! key0 = Some e1).
  { apply order_items. rewrite Horder. left. }
  destruct (find_root_returns d key0 (S fuel) Hsize) as [root Hroot].
  rewrite Hroot. cbn [mbind option_bind].
  destruct (find_root_has_child d key0 root (S fuel) ltac:(eauto) Hroot)
    as (kc & ec & Hkc & Hchild).
  destruct (draw_children_run (S fuel) 0 root d Hkeyed Hsize)
    as (rows1 & d1 & Hrun1 & Hsub1 & Hkids1 & Hrem1 & Hfrom1).
  rewrite Hrun1. cbn [mbind option_bind].
  assert (Hsize1 : (size d1 < fuel)%nat).
  { assert (Hstrict : d1 ⊂ d).
    { split; [exact Hsub1|].
      intros Hback. pose proof (lookup_weaken _ _ _ _ Hkc Hback) as Hin.
      rewrite (Hkids1 kc ec Hkc Hchild) in Hin. discriminate Hin. }
    pose proof (map_subset_size d1 d Hstrict). lia. }
  destruct (IH d1 (acc ++ rows1) (keyed_subseteq _ _ Hkeyed Hsub1) Hsize1)
    as (rows2 & Hrun2 & Hall2).
  exists (rows1 ++ rows2). split; [rewrite Hrun2, <- app_assoc; reflexivity|].
  intros e. rewrite fmap_app, elem_of_app, <- Hall2. split.
  - intros [k Hk]. destruct (d1 !! k) as [e'|] eqn:Hd1.
    + right. exists k. pose proof (lookup_weaken _ _ _ _ Hd1 Hsub1). congruence.
    + left. apply (Hrem1 k e Hk Hd1).
  - intros [Hin|[k Hk]].
    + apply list_elem_of_fmap in Hin as (r & -> & Hr). eauto.
    + exists k. eapply lookup_weaken; eassumption.
Qed.

(** X24: [render] returns for every list of processes, whatever the parent
    links (cycles and self-loops included) and whatever order the
    dictionary gives its items in; one iteration more than there are
    distinct PIDs suffices.  The rows show exactly the processes of the
    dictionary: each at least once, and nothing else. *)
Theorem render_shows_all (procs : list EPROCESS) (fuel : nat) :
  (size (_make_process_dict procs) < fuel)%nat ->
  exists rows,
    render order fuel procs = Some rows
    /\ (forall e, e ∈ rows.*2
          <-> exists k, _make_process_dict procs !! k = Some e).
Proof.
  intros Hfuel. unfold render.
  destruct (render_loop_spec fuel (_make_process_dict procs) [])
    as (rows & Hrun & Hall).
  - apply make_process_dict_keyed.
  - exact Hfuel.
  - exists rows. split; [exact Hrun|]. intros e. symmetry. apply Hall.
Qed.

End ProcessDict.

Lemma draw_children_spec_demo :
  exists rows process_dict',
    draw_children map_to_list 6 0 1 (_make_process_dict demo_procs)
    = Some (rows, process_dict')
    /\ process_dict' ⊆ _make_process_dict demo_procs
    /\ (forall k e, _make_process_dict demo_procs !! k = Some e ->
          InheritedFromUniqueProcessId e = 1 -> process_dict' !! k = None)
    /\ (forall k e, _make_process_dict demo_procs !! k = Some e ->
          process_dict' !! k = None -> e ∈ rows.*2)
    /\ (forall r, r ∈ rows ->
          _make_process_dict demo_procs !! UniqueProcessId r.2 = Some r.2)
    /\ ((forall k e, _make_process_dict demo_procs !! k = Some e ->
           InheritedFromUniqueProcessId e <> 1) ->
        rows = [] /\ process_dict' = _make_process_dict demo_procs).
Proof.
  apply (draw_children_spec map_to_list
           (fun d k e => elem_of_map_to_list d k e) 6 0 1
           (_make_process_dict demo_procs)).
  - apply make_process_dict_keyed.
  - vm_compute. lia.
Defined.

Lemma render_shows_all_demo :
  exists rows,
    render map_to_list 6 demo_procs = Some rows
    /\ (forall e, e ∈ rows.*2
          <-> exists k, _make_process_dict demo_procs !! k = Some e).
Proof.
  apply (render_shows_all map_to_list (fun d k e => elem_of_map_to_list d k e)).
  vm_compute. lia.
Defined.

Example demo_render :
  render map_to_list 6 demo_procs
  = Some [(0%nat, {| UniqueProcessId := 7; InheritedFromUniqueProcessId := 1 |});
          (0%nat, {| UniqueProcessId := 2; InheritedFromUniqueProcessId := 1 |});
          (1%nat, {| UniqueProcessId := 1; InheritedFromUniqueProcessId := 2 |});
          (0%nat, {| UniqueProcessId := 9; InheritedFromUniqueProcessId := 0 |});
          (0%nat, {| UniqueProcessId := 4; InheritedFromUniqueProcessId := 4 |})].
Proof. vm_compute. reflexivity. Qed.
